(** * AMPtorch tutorial notebooks: a shallow embedding of the workflow glue

    The repository holds two notebooks (the BPNN tutorial on CuCO and the GMP
    tutorial on the 2-D water data set).  Each one builds a list of ASE
    [Atoms] objects, hands them to the external trainer, and reduces the true
    and predicted energies to two error metrics with numpy.

    Numbers.  numpy computes in IEEE binary64.  Here a finite float is an
    exact real number (rounding, overflow and the sign of zero are not
    modelled); the special values [inf], [-inf] and [nan] are kept, with the
    IEEE rules for producing and propagating them.

    External code.  numpy, ASE and the AMPtorch trainer are not part of the
    repository.  numpy and ASE calls are embedded after their documented
    behaviour on the arguments the notebooks pass; the fitted model and the
    EMT potential are parameters of a section. *)

From Stdlib Require Import Reals Lra Lia ZArith Ascii.
From stdpp Require Import base option list strings.

Open Scope R_scope.

(** ** Idealised binary64 *)

Module Float.

Inductive float64 : Type :=
  | Fin (r : R)
  | Inf (neg : bool)
  | NaN.

Definition is_finite (x : float64) : bool :=
  match x with Fin _ => true | _ => false end.

Definition Rneg (r : R) : bool := if Rlt_dec r 0 then true else false.

Definition fopp (x : float64) : float64 :=
  match x with
  | Fin r => Fin (- r)
  | Inf s => Inf (negb s)
  | NaN => NaN
  end.

Definition fadd (x y : float64) : float64 :=
  match x, y with
  | NaN, _ | _, NaN => NaN
  | Fin a, Fin b => Fin (a + b)
  | Inf s, Fin _ | Fin _, Inf s => Inf s
  | Inf s, Inf t => if Bool.eqb s t then Inf s else NaN
  end.

Definition fsub (x y : float64) : float64 := fadd x (fopp y).

Definition fmul (x y : float64) : float64 :=
  match x, y with
  | NaN, _ | _, NaN => NaN
  | Fin a, Fin b => Fin (a * b)
  | Inf s, Fin r | Fin r, Inf s =>
      if Req_dec_T r 0 then NaN else Inf (xorb s (Rneg r))
  | Inf s, Inf t => Inf (xorb s t)
  end.

Definition fdiv (x y : float64) : float64 :=
  match x, y with
  | NaN, _ | _, NaN => NaN
  | Fin a, Fin b =>
      if Req_dec_T b 0
      then (if Req_dec_T a 0 then NaN else Inf (Rneg a))
      else Fin (a / b)
  | Fin _, Inf _ => Fin 0
  | Inf s, Fin r => Inf (xorb s (Rneg r))
  | Inf _, Inf _ => NaN
  end.

Definition fabs (x : float64) : float64 :=
  match x with
  | Fin r => Fin (Rabs r)
  | Inf _ => Inf false
  | NaN => NaN
  end.

(** [x >= 0] as numpy evaluates it: false on [nan]. *)
Definition nonneg (x : float64) : Prop :=
  match x with
  | Fin r => 0 <= r
  | Inf s => s = false
  | NaN => False
  end.

End Float.
Export Float.

(** ** Python exceptions

    A call either returns or raises.  [NotFinite] is not a Python
    exception: it marks the one outcome that leaves the real-valued model of
    positions, a call that returns after numpy has divided by zero and
    stored [nan] positions. *)

Inductive exn : Type :=
  | ValueError | TypeError | IndexError | NameError | StopIteration
  | AssertionError | RuntimeError | PropertyNotImplementedError
  | ZeroDivisionError
  | NotFinite.

Inductive result (A : Type) : Type :=
  | Ok (a : A)
  | Raise (e : exn).
Arguments Ok {A} a.
Arguments Raise {A} e.

#[global] Instance result_ret : MRet result := λ A a, Ok a.
#[global] Instance result_bind : MBind result := λ A B f m,
  match m with Ok a => f a | Raise e => Raise e end.
#[global] Instance result_fmap : FMap result := λ A B f m,
  match m with Ok a => Ok (f a) | Raise e => Raise e end.

(** ** The numpy calls of the error cell *)

Module Np.

(** A one-dimensional float64 array. *)
Definition ndarray : Type := list float64.

(** The warnings numpy's [mean] issues itself. *)
Inductive RuntimeWarning : Type :=
  | Mean_of_empty_slice.

(** [a - b] on one-dimensional arrays: elementwise on equal shapes, an array
    of length one is broadcast, any other pair of shapes raises
    [ValueError]. *)
Definition subtract (a b : ndarray) : result ndarray :=
  if decide (length a = length b) then Ok (zip_with fsub a b)
  else match a, b with
       | [x], _ => Ok ((λ y, fsub x y) <$> b)
       | _, [y] => Ok ((λ x, fsub x y) <$> a)
       | _, _ => Raise ValueError
       end.

(** [a ** 2]. *)
Definition square (a : ndarray) : ndarray := (λ x, fmul x x) <$> a.

(** [np.abs(a)]. *)
Definition abs (a : ndarray) : ndarray := fabs <$> a.

(** The add-reduction behind [mean], starting from [0.0]. *)
Definition sum (a : ndarray) : float64 := foldr fadd (Fin 0) a.

(** [np.mean(a)]: the sum divided by the number of items; on an empty array
    this is [0.0 / 0], after the warning. *)
Definition mean (a : ndarray) : float64 * list RuntimeWarning :=
  let rcount := length a in
  let warned := if decide (rcount = 0%nat) then [Mean_of_empty_slice] else [] in
  (fdiv (sum a) (Fin (INR rcount)), warned).

(** [np.arange(0, num)] as floats. *)
Definition arange (num : Z) : list R :=
  (λ i : nat, INR i) <$> seq 0 (Z.to_nat num).

(** [y[-1] = stop]. *)
Definition set_last (y : list R) (stop : R) : list R :=
  <[pred (length y) := stop]> y.

(** [np.linspace(start, stop, num)] with [endpoint=True]: [num] samples
    [arange(0, num) * step + start], [step = (stop - start) / (num - 1)],
    the last one overwritten by [stop]; a negative [num] raises. *)
Definition linspace (start stop : R) (num : Z) : result (list R) :=
  if decide (num < 0)%Z then Raise ValueError
  else
    let div := (num - 1)%Z in
    let y := arange num in
    let delta := stop - start in
    let y :=
      if decide (0 < div)%Z then
        let step := delta / IZR div in
        if Req_dec_T step 0
        then (λ i, i / IZR div * delta) <$> y
        else (λ i, i * step) <$> y
      else (λ i, i * delta) <$> y in
    let y := (λ v, v + start) <$> y in
    Ok (if decide (1 < num)%Z then set_last y stop else y).

(** [np.log10(x)] on a positive argument. *)
Definition log10 (x : R) : R := ln x / ln 10.

(** [np.logspace(start, stop, num)]: [10 ** linspace(start, stop, num)]. *)
Definition logspace (start stop : R) (num : Z) : result (list R) :=
  y ← linspace start stop num;
  Ok ((λ e, Rpower 10 e) <$> (y : list R)).

End Np.

(** ** The error cell (potential-kingston, both notebooks)

    [np.mean((true_energies - pred_energies) ** 2)] and
    [np.mean(np.abs(true_energies - pred_energies))]. *)

Definition energy_MSE (true_energies pred_energies : Np.ndarray)
  : result (float64 * list Np.RuntimeWarning) :=
  d ← Np.subtract true_energies pred_energies;
  Ok (Np.mean (Np.square d)).

Definition energy_MAE (true_energies pred_energies : Np.ndarray)
  : result (float64 * list Np.RuntimeWarning) :=
  d ← Np.subtract true_energies pred_energies;
  Ok (Np.mean (Np.abs d)).

(** The number a metric prints, when the cell does not raise. *)
Definition printed (r : result (float64 * list Np.RuntimeWarning))
  : result float64 := fst <$> r.

(** Values a square or an absolute value can take: never [-inf]. *)
Definition no_minus_inf (x : float64) : Prop := x ≠ Inf true.

(** An array of real-valued energies. *)
Definition reals (l : list R) : Np.ndarray := Fin <$> l.

(** *** Reference definitions, as the specification words them

    For [T] and [P] of length [N]: the mean over [i = 1..N] of
    [(T_i - P_i)^2], and of [|T_i - P_i|]. *)

Definition MSE_reference (T P : list R) : R :=
  sum_f_R0 (λ i, (nth i T 0 - nth i P 0) ^ 2) (length T - 1) / INR (length T).

Definition MAE_reference (T P : list R) : R :=
  sum_f_R0 (λ i, Rabs (nth i T 0 - nth i P 0)) (length T - 1) / INR (length T).

(** ** The ASE calls of the notebooks *)

Module Ase.

Definition vec3 : Type := (R * R * R)%type.

Definition vadd (u v : vec3) : vec3 :=
  let '(a, b, c) := u in let '(x, y, z) := v in (a + x, b + y, c + z).
Definition vsub (u v : vec3) : vec3 :=
  let '(a, b, c) := u in let '(x, y, z) := v in (a - x, b - y, c - z).
Definition vscale (k : R) (v : vec3) : vec3 :=
  let '(x, y, z) := v in (k * x, k * y, k * z).
(** [np.sqrt((D**2).sum())] *)
Definition norm (v : vec3) : R :=
  let '(x, y, z) := v in sqrt (x ^ 2 + y ^ 2 + z ^ 2).

(** The part of an [Atoms] object the notebooks read and write, calculator
    apart.  The cell is kept as its three edge lengths, the only form the
    notebooks give it. *)
Record Geometry : Type := mkGeometry {
  symbols : list string;
  positions : list vec3;
  cell : vec3;
  pbc : bool * bool * bool
}.

(** The three calculators the notebooks attach.  [EMT] and [AMPtorch] keep
    the structure and energy of their last calculation;
    [SinglePointCalculator] holds the results stored in the trajectory. *)
Inductive Calculator : Type :=
  | EMT (results : option (Geometry * float64))
  | SinglePointCalculator (atoms : Geometry) (energy : option float64)
      (forces : option (list vec3))
  | AMPtorch (results : option (Geometry * float64)).

Record Atoms : Type := mkAtoms {
  geometry : Geometry;
  calc : option Calculator
}.

Definition get_cell (a : Atoms) : vec3 := cell (geometry a).
Definition get_pbc (a : Atoms) : bool * bool * bool := pbc (geometry a).
Definition get_positions (a : Atoms) : list vec3 := positions (geometry a).
Definition get_chemical_symbols (a : Atoms) : list string :=
  symbols (geometry a).

(** The force matrix a structure carries: the one stored with it. *)
Definition stored_forces (a : Atoms) : option (list vec3) :=
  match calc a with
  | Some (SinglePointCalculator _ _ f) => f
  | _ => None
  end.

(** *** Formula strings *)

Definition is_upper (c : ascii) : bool :=
  let n := nat_of_ascii c in (65 <=? n)%nat && (n <=? 90)%nat.
Definition is_lower (c : ascii) : bool :=
  let n := nat_of_ascii c in (97 <=? n)%nat && (n <=? 122)%nat.
Definition is_digit (c : ascii) : bool :=
  let n := nat_of_ascii c in (48 <=? n)%nat && (n <=? 57)%nat.
Definition digit_value (c : ascii) : nat := (nat_of_ascii c - 48)%nat.

(** The symbol being read and the count read after it so far. *)
Definition pending : Type := option (string * option nat).

Definition flush (cur : pending) : list string :=
  match cur with
  | None => []
  | Some (sym, n) => replicate (default 1%nat n) sym
  end.

(** [string2symbols] on plain formulas: an upper-case letter, at most one
    lower-case letter, an optional count.  A leading multiplier or a
    parenthesised group, which the notebooks never write, is refused here
    like any other stray character. *)
Fixpoint symbols_loop (s : string) (cur : pending) : result (list string) :=
  match s with
  | EmptyString => Ok (flush cur)
  | String c s' =>
      if is_upper c then
        rest ← symbols_loop s' (Some (String c EmptyString, None));
        Ok (flush cur ++ rest)
      else if is_lower c then
        match cur with
        | Some (String u EmptyString, None) =>
            symbols_loop s' (Some (String u (String c EmptyString), None))
        | _ => Raise ValueError
        end
      else if is_digit c then
        match cur with
        | Some (sym, n) =>
            symbols_loop s'
              (Some (sym, Some (10 * default 0%nat n + digit_value c)%nat))
        | None => Raise ValueError
        end
      else Raise ValueError
  end.

Definition string2symbols (s : string) : result (list string) :=
  symbols_loop s None.

(** *** Construction and the setters *)

(** [Atoms(symbols, positions)]: no cell, not periodic, no calculator; the
    positions array must have one row per symbol. *)
Definition new_Atoms (formula : string) (pos : list vec3) : result Atoms :=
  syms ← string2symbols formula;
  if decide (length pos = length syms) then
    Ok {| geometry := {| symbols := syms; positions := pos;
                         cell := (0, 0, 0); pbc := (false, false, false) |};
          calc := None |}
  else Raise ValueError.

Definition with_geometry (a : Atoms) (g : Geometry) : Atoms :=
  {| geometry := g; calc := calc a |}.

(** [a.set_cell([x, y, z])], atoms not scaled. *)
Definition set_cell (a : Atoms) (c : vec3) : Atoms :=
  let g := geometry a in
  with_geometry a {| symbols := symbols g; positions := positions g;
                     cell := c; pbc := pbc g |}.

(** [a.set_pbc([x, y, z])]. *)
Definition set_pbc (a : Atoms) (p : bool * bool * bool) : Atoms :=
  let g := geometry a in
  with_geometry a {| symbols := symbols g; positions := positions g;
                     cell := cell g; pbc := p |}.

(** [a.set_calculator(c)]. *)
Definition set_calculator (a : Atoms) (c : Calculator) : Atoms :=
  {| geometry := geometry a; calc := Some c |}.

(** *** [wrap] *)

Definition eps : R := 1e-7.

(** One coordinate through [wrap_positions] with the default centre:
    the fractional coordinate shifted by [eps], reduced modulo [1.0],
    shifted back and scaled by the edge. *)
Definition wrap_coordinate (periodic : bool) (edge x : R) : R :=
  if periodic then (frac_part (x / edge + eps) + - eps) * edge else x.

Definition wrap_position (p : bool * bool * bool) (c : vec3) (v : vec3)
  : vec3 :=
  let '(px, py, pz) := p in
  let '(cx, cy, cz) := c in
  let '(x, y, z) := v in
  (wrap_coordinate px cx x, wrap_coordinate py cy y, wrap_coordinate pz cz z).

Definition edge_ok (periodic : bool) (edge : R) : bool :=
  if periodic then (if Req_dec_T edge 0 then false else true) else true.

(** [a.wrap(pbc=p)]: asserts a non-zero cell vector on every wrapped axis. *)
Definition wrap (a : Atoms) (p : bool * bool * bool) : result Atoms :=
  let g := geometry a in
  let '(px, py, pz) := p in
  let '(cx, cy, cz) := cell g in
  if edge_ok px cx && edge_ok py cy && edge_ok pz cz then
    Ok (with_geometry a
          {| symbols := symbols g;
             positions := wrap_position p (cell g) <$> positions g;
             cell := cell g; pbc := pbc g |})
  else Raise AssertionError.

(** *** [center], [molecule] and [set_distance] *)

Definition minimum (xs : list R) : R :=
  match xs with [] => 0 | x :: t => foldr Rmin x t end.
Definition maximum (xs : list R) : R :=
  match xs with [] => 0 | x :: t => foldr Rmax x t end.

(** One axis of [a.center(vacuum=v)], for a cell that is missing altogether
    (as in [molecule]) or has three positive edges: the new edge and the
    translation.  A missing (zero) cell vector is completed by a unit vector
    first; when the new cell vector comes out zero, the translation is taken
    back by half the completed vector. *)
Definition center_axis (vacuum edge : R) (xs : list R) : R * R :=
  let edge := if Req_dec_T edge 0 then 1 else edge in
  let p0 := minimum xs in
  let p1 := maximum xs in
  let height := edge in
  let lng := (p1 - p0 + 2 * vacuum) - height in
  let top := lng + height - p1 in
  let shf := 0.5 * (top - p0) in
  let new_edge := edge * (1 + lng / edge) in
  (new_edge, if Req_dec_T new_edge 0 then shf - 0.5 * edge else shf).

Definition center (a : Atoms) (vacuum : R) : Atoms :=
  let g := geometry a in
  let '(cx, cy, cz) := cell g in
  let '(ex, tx) := center_axis vacuum cx ((λ v : vec3, v.1.1) <$> positions g) in
  let '(ey, ty) := center_axis vacuum cy ((λ v : vec3, v.1.2) <$> positions g) in
  let '(ez, tz) := center_axis vacuum cz ((λ v : vec3, v.2) <$> positions g) in
  with_geometry a
    {| symbols := symbols g;
       positions := (λ v, vadd v (tx, ty, tz)) <$> positions g;
       cell := (ex, ey, ez); pbc := pbc g |}.

(** [molecule("H2O", vacuum=v)]: the G2 entry for water, then centred. *)
Definition molecule_H2O (vacuum : R) : result Atoms :=
  a ← new_Atoms "OHH"
        [(0, 0, 0.119262); (0, 0.763239, -0.477047);
         (0, -0.763239, -0.477047)];
  Ok (center a vacuum).

(** [a.set_distance(a0, a1, distance)] with [fix=0.5], for non-negative
    indices: the indices are compared modulo the number of atoms, then both
    atoms move along their connecting vector.  When the two atoms coincide
    the call divides by zero and returns with [nan] positions, which is
    [NotFinite] here. *)
Definition set_distance (a : Atoms) (a0 a1 : nat) (distance : R)
  : result Atoms :=
  let g := geometry a in
  let pos := positions g in
  if decide (length pos = 0%nat) then Raise ZeroDivisionError
  else if decide (a0 `mod` length pos = a1 `mod` length pos)
  then Raise ValueError
  else
    match pos !! a0, pos !! a1 with
    | Some r0, Some r1 =>
        let D := vsub r1 r0 in
        let D_len := norm D in
        if Req_dec_T D_len 0 then Raise NotFinite
        else
          let x := 1 - distance / D_len in
          let pos := <[a0 := vadd r0 (vscale (x * 0.5) D)]> pos in
          let pos := <[a1 := vsub r1 (vscale (x * (1 - 0.5)) D)]> pos in
          Ok (with_geometry a
                {| symbols := symbols g; positions := pos;
                   cell := cell g; pbc := pbc g |})
    | _, _ => Raise IndexError
    end.

(** *** Index strings and slices *)

Record slice : Type := mkSlice {
  slice_start : option Z;
  slice_stop : option Z;
  slice_step : option Z
}.

Inductive index : Type :=
  | Int (i : Z)
  | Slice (s : slice).

Fixpoint split_on (sep : ascii) (s : string) : list string :=
  match s with
  | EmptyString => [EmptyString]
  | String c s' =>
      if decide (c = sep) then EmptyString :: split_on sep s'
      else match split_on sep s' with
           | h :: t => String c h :: t
           | [] => [String c EmptyString]
           end
  end.

Fixpoint digits_value (s : string) (acc : Z) : result Z :=
  match s with
  | EmptyString => Ok acc
  | String c s' =>
      if is_digit c then digits_value s' (10 * acc + Z.of_nat (digit_value c))%Z
      else Raise ValueError
  end.

(** [int(s)] on an optional minus sign followed by decimal digits. *)
Definition int (s : string) : result Z :=
  match s with
  | EmptyString => Raise ValueError
  | String "-" EmptyString => Raise ValueError
  | String "-" s' => Z.opp <$> digits_value s' 0%Z
  | _ => digits_value s 0%Z
  end.

Definition field (s : string) : result (option Z) :=
  match s with
  | EmptyString => Ok None
  | _ => Some <$> int s
  end.

Definition has_colon (s : string) : bool :=
  match split_on ":" s with [_] => false | _ => true end.

(** [string2index]: an integer, or the fields of a slice between colons. *)
Definition string2index (s : string) : result index :=
  if has_colon s then
    match split_on ":" s with
    | [a; b] => a ← field a; b ← field b; Ok (Slice (mkSlice a b None))
    | [a; b; c] =>
        a ← field a; b ← field b; c ← field c; Ok (Slice (mkSlice a b c))
    | _ => Raise TypeError
    end
  else Int <$> int s.

(** [slice.indices(len)] of Python. *)
Definition clamp (len lower upper : Z) (bound : option Z) (dflt : Z) : Z :=
  match bound with
  | None => dflt
  | Some b =>
      if decide (b < 0)%Z then (if decide (b + len < lower)%Z then lower else b + len)%Z
      else (if decide (upper < b)%Z then upper else b)
  end.

Definition indices (s : slice) (len : Z) : result (Z * Z * Z) :=
  let step := default 1%Z (slice_step s) in
  if decide (step = 0)%Z then Raise ValueError
  else
    let negative := bool_decide (step < 0)%Z in
    let lower := if negative then (-1)%Z else 0%Z in
    let upper := if negative then (len - 1)%Z else len in
    let start := clamp len lower upper (slice_start s)
                   (if negative then upper else lower) in
    let stop := clamp len lower upper (slice_stop s)
                  (if negative then lower else upper) in
    Ok (start, stop, step).

(** [range(start, stop, step)] for a non-zero step. *)
Definition range_length (start stop step : Z) : Z :=
  if decide (0 < step)%Z then
    (if decide (start < stop)%Z then (stop - start - 1) / step + 1 else 0)%Z
  else
    (if decide (stop < start)%Z then (start - stop - 1) / (- step) + 1 else 0)%Z.

Definition range (start stop step : Z) : list Z :=
  (λ k : nat, (start + Z.of_nat k * step)%Z)
    <$> seq 0 (Z.to_nat (range_length start stop step)).

(** [trj[i]] for the indices a slice yields. *)
Definition getitem {A} (trj : list A) (i : Z) : result A :=
  if decide (i < 0)%Z then Raise IndexError
  else match trj !! Z.to_nat i with
       | Some a => Ok a
       | None => Raise IndexError
       end.

(** The loop shape [out = []; for x in xs: out.append(body(x))]. *)
Fixpoint for_append {A B} (body : A → result B) (xs : list A)
  : result (list B) :=
  match xs with
  | [] => Ok []
  | x :: xs' => y ← body x; ys ← for_append body xs'; Ok (y :: ys)
  end.

Inductive read_result : Type :=
  | One (a : Atoms)
  | Many (images : list Atoms).

(** [ase.io.read(file, index=s)], the stored trajectory given as the list
    of its entries: a slice yields [trj[i]] for each [i] of the range
    spanned by [slice.indices(len(trj))], an integer the single entry. *)
Definition read (trj : list Atoms) (s : string) : result read_result :=
  idx ← string2index s;
  let len := Z.of_nat (length trj) in
  match idx with
  | Slice sl =>
      '(start, stop, step) ← indices sl len;
      Many <$> for_append (getitem trj) (range start stop step)
  | Int i =>
      '(start, stop, step) ← indices (mkSlice (Some i) None None) len;
      match range start stop step with
      | j :: _ => One <$> getitem trj j
      | [] => Raise StopIteration
      end
  end.

(** *** Trajectory files

    One stored image of a trajectory file: the arrays written for it and,
    when the image had a calculator at writing time, the energy and the
    force array kept with it. *)
Record Frame : Type := mkFrame {
  frame_symbols : list string;
  frame_positions : list vec3;
  frame_cell : vec3;
  frame_pbc : bool * bool * bool;
  frame_calculator : option (option float64 * option (list vec3))
}.

(** The force array stored with an image, if any. *)
Definition frame_forces (b : Frame) : option (list vec3) :=
  match frame_calculator b with
  | Some (_, forces) => forces
  | None => None
  end.

(** [read_atoms(backend)]: the structure is built by [Atoms(positions=...,
    numbers=..., cell=..., pbc=...)], which refuses a positions array whose
    length differs from that of the numbers. *)
Definition read_atoms (b : Frame) : result Atoms :=
  if decide (length (frame_positions b) = length (frame_symbols b)) then
    Ok {| geometry := {| symbols := frame_symbols b;
                         positions := frame_positions b;
                         cell := frame_cell b; pbc := frame_pbc b |};
          calc := None |}
  else Raise ValueError.

(** [TrajectoryReader.__getitem__(i)]: the stored results are handed to
    [SinglePointCalculator(atoms, **results)], which keeps them as they are;
    the shape of the force array is not compared with the structure. *)
Definition TrajectoryReader_getitem (file : list Frame) (i : Z)
  : result Atoms :=
  b ← getitem file i;
  atoms ← read_atoms b;
  match frame_calculator b with
  | Some (energy, forces) =>
      Ok (set_calculator atoms
            (SinglePointCalculator (geometry atoms) energy forces))
  | None => Ok atoms
  end.

(** [ase.io.read(file, index=s)] on the stored images of the file:
    [read_traj] yields [trj[i]] for each [i] of the range. *)
Definition read_traj (file : list Frame) (s : string) : result read_result :=
  idx ← string2index s;
  let len := Z.of_nat (length file) in
  match idx with
  | Slice sl =>
      '(start, stop, step) ← indices sl len;
      Many <$> for_append (TrajectoryReader_getitem file)
                 (range start stop step)
  | Int i =>
      '(start, stop, step) ← indices (mkSlice (Some i) None None) len;
      match range start stop step with
      | j :: _ => One <$> TrajectoryReader_getitem file j
      | [] => Raise StopIteration
      end
  end.

End Ase.
Export Ase.

(** ** The generation loops *)

(** Cell alternative-starter of the BPNN notebook, one pass of the loop. *)
Definition CuCO_image (dist : R) : result Atoms :=
  image ← new_Atoms "CuCO"
            [(- dist * sin 0.65, dist * cos 0.65, 0);
             (0, 0, 0);
             (dist * sin 0.65, dist * cos 0.65, 0)];
  let image := set_cell image (10, 10, 10) in
  image ← wrap image (true, true, true);
  let image := set_calculator image (EMT None) in
  Ok image.

Definition CuCO_images (start stop : R) (num : Z) : result (list Atoms) :=
  distances ← Np.linspace start stop num;
  for_append CuCO_image distances.

(** [distances = np.linspace(2, 5, 100)]. *)
Definition images_BP : result (list Atoms) := CuCO_images 2 5 100.

(** Cell chicken-slide of the GMP notebook, one pass of the loop. *)
Definition H2O_image (dist : R) : result Atoms :=
  image ← molecule_H2O 10.0;
  let image := set_cell image (10, 10, 10) in
  let image := set_pbc image (true, true, true) in
  image ← set_distance image 0 2 dist;
  Ok image.

Definition H2O_images (start stop : R) (num : Z) : result (list Atoms) :=
  distances ← Np.linspace start stop num;
  for_append H2O_image distances.

(** [distances = np.linspace(0.8, 1.2, 100)]. *)
Definition images_GMP : result (list Atoms) := H2O_images 0.8 1.2 100.

(** Cell alternative-starter of the GMP notebook:
    [training = ase.io.read("./data/single_water_2D.traj", index="::10")]. *)
Definition load_training (trj : list Atoms) : result read_result :=
  read trj "::10".

(** The first loaded structure, as cell differential-syria prints it. *)
Definition training_0_geometry : Geometry :=
  {| symbols := ["O"; "H"; "H"];
     positions := [(5, 5, 5.2981545); (5, 5.763239, 4.7018455);
                   (5.87240588, 3.09291855, 4.26505605)];
     cell := (10, 10, 10);
     pbc := (true, true, true) |}.

Definition training_0 : Atoms :=
  {| geometry := training_0_geometry;
     calc := Some (SinglePointCalculator training_0_geometry
                     (Some (Fin (-593.3815601078402)))
                     (Some [(0, 0, 0); (0, 0, 0);
                            (-0.6816002, 1.67015579, 0.67090199)])) |}.

(** The loading cell on the stored images of the trajectory file. *)
Definition load_training_file (file : list Frame) : result read_result :=
  read_traj file "::10".

(** The stored image [training_0] is read from. *)
Definition training_0_frame : Frame :=
  {| frame_symbols := ["O"; "H"; "H"];
     frame_positions := [(5, 5, 5.2981545); (5, 5.763239, 4.7018455);
                         (5.87240588, 3.09291855, 4.26505605)];
     frame_cell := (10, 10, 10);
     frame_pbc := (true, true, true);
     frame_calculator :=
       Some (Some (Fin (-593.3815601078402)),
             Some [(0, 0, 0); (0, 0, 0);
                   (-0.6816002, 1.67015579, 0.67090199)]) |}.

(** The same image stored with a force array of a single row. *)
Definition short_forces_frame : Frame :=
  {| frame_symbols := ["O"; "H"; "H"];
     frame_positions := [(5, 5, 5.2981545); (5, 5.763239, 4.7018455);
                         (5.87240588, 3.09291855, 4.26505605)];
     frame_cell := (10, 10, 10);
     frame_pbc := (true, true, true);
     frame_calculator :=
       Some (Some (Fin (-593.3815601078402)), Some [(0, 0, 0)]) |}.

(** Cell permanent-picnic of the BPNN notebook, the G2 widths:
    [np.logspace(np.log10(0.05), np.log10(5.0), num=4)]. *)
Definition etas_between (lo hi : R) (num : Z) : result (list R) :=
  Np.logspace (Np.log10 lo) (Np.log10 hi) num.

Definition G2_etas : result (list R) := etas_between 0.05 5.0 4.

(** ** The data-model invariant *)

Definition matching (g : Geometry) : Prop :=
  length (symbols g) = length (positions g).

(** Symbols, positions and, when present, the force matrix agree on the
    number of atoms; a position and a force row are 3-vectors by type. *)
Definition consistent (a : Atoms) : Prop :=
  matching (geometry a) ∧
  match stored_forces a with
  | Some F => length F = length (symbols (geometry a))
  | None => True
  end.

(** Plain Euclidean distance between two positions. *)
Definition distance (u v : vec3) : R := norm (vsub u v).

(** [a.get_distance(a0, a1)], without the minimum-image convention. *)
Definition get_distance (a : Atoms) (a0 a1 : nat) : result R :=
  match get_positions a !! a0, get_positions a !! a1 with
  | Some r0, Some r1 => Ok (norm (vsub r1 r0))
  | _, _ => Raise IndexError
  end.

(** ** Calculators, the trainer and the error cell *)

Record Predictions : Type := mkPredictions { energy : Np.ndarray }.

Record Report : Type := mkReport {
  report_MSE : float64 * list Np.RuntimeWarning;
  report_MAE : float64 * list Np.RuntimeWarning;
  report_energy : float64
}.

Section Workflow.

(** ASE's EMT potential and the fitted AMPtorch model, as functions of the
    structure; [unchanged] is the calculators' test that the structure is
    the one of their last calculation. *)
Variable emt_energy : Geometry → float64.
Variable model_energy : Geometry → float64.
Variable unchanged : Geometry → Geometry → bool.

Definition cached (res : option (Geometry * float64)) (g : Geometry)
  : option float64 :=
  match res with
  | Some (g0, e) => if unchanged g0 g then Some e else None
  | None => None
  end.

(** The calculator's side of [get_potential_energy]: the energy and the
    calculator afterwards. *)
Definition calculate (c : Calculator) (g : Geometry)
  : result (float64 * Calculator) :=
  match c with
  | EMT res =>
      match cached res g with
      | Some e => Ok (e, c)
      | None => let e := emt_energy g in Ok (e, EMT (Some (g, e)))
      end
  | AMPtorch res =>
      match cached res g with
      | Some e => Ok (e, c)
      | None => let e := model_energy g in Ok (e, AMPtorch (Some (g, e)))
      end
  | SinglePointCalculator g0 en _ =>
      match en with
      | Some e =>
          if unchanged g0 g then Ok (e, c)
          else Raise PropertyNotImplementedError
      | None => Raise PropertyNotImplementedError
      end
  end.

(** [a.get_potential_energy()]: the energy and the object afterwards. *)
Definition get_potential_energy (a : Atoms) : result (float64 * Atoms) :=
  match calc a with
  | None => Raise RuntimeError
  | Some c =>
      '(e, c') ← calculate c (geometry a);
      Ok (e, {| geometry := geometry a; calc := Some c' |})
  end.

(** [trainer.predict(images)]: one energy per structure. *)
Definition predict (images : list Atoms) : Predictions :=
  {| energy := (λ a, model_energy (geometry a)) <$> images |}.

(** [[image.get_potential_energy() for image in images]], with the
    objects of the list afterwards. *)
Fixpoint potential_energies (images : list Atoms)
  : result (list float64 * list Atoms) :=
  match images with
  | [] => Ok ([], [])
  | image :: rest =>
      '(e, image') ← get_potential_energy image;
      '(es, rest') ← potential_energies rest;
      Ok (e :: es, image' :: rest')
  end.

(** The metrics and the calculator swap on the object at [i]. *)
Definition error_cell (images : list Atoms) (i : nat) (missing : exn)
  : result (Report * list Atoms) :=
  let predictions := predict images in
  '(true_energies, images) ← potential_energies images;
  let pred_energies := energy predictions in
  mse ← energy_MSE true_energies pred_energies;
  mae ← energy_MAE true_energies pred_energies;
  match images !! i with
  | None => Raise missing
  | Some image =>
      let image := set_calculator image (AMPtorch None) in
      '(e, image) ← get_potential_energy image;
      Ok ({| report_MSE := mse; report_MAE := mae; report_energy := e |},
          <[i := image]> images)
  end.

(** Cell potential-kingston of the BPNN notebook; [image] there is the
    loop variable of the generation cell, the last object of [images]. *)
Definition error_cell_BP (images : list Atoms)
  : result (Report * list Atoms) :=
  error_cell images (pred (length images)) NameError.

(** Cell potential-kingston of the GMP notebook, on [training[0]]. *)
Definition error_cell_GMP (training : list Atoms)
  : result (Report * list Atoms) :=
  error_cell training 0 IndexError.

End Workflow.

(** * Properties *)

(** ** The error metrics on real-valued energies *)

Section Metrics.

Implicit Types T P l : list R.

Lemma subtract_reals T P :
  length T = length P →
  Np.subtract (reals T) (reals P) = Ok (reals (zip_with Rminus T P)).
Proof.
  intros Hlen. unfold Np.subtract, reals.
  rewrite !length_fmap, decide_True by done. f_equal.
  clear Hlen. revert P. induction T as [|t T IH]; intros [|p P]; simpl; try done.
  by rewrite IH.
Qed.

Lemma square_reals l : Np.square (reals l) = reals ((λ d, d ^ 2) <$> l).
Proof.
  unfold Np.square, reals. rewrite <- !list_fmap_compose.
  apply list_fmap_ext. intros _ d _. simpl. f_equal. ring.
Qed.

Lemma abs_reals l : Np.abs (reals l) = reals (Rabs <$> l).
Proof. unfold Np.abs, reals. by rewrite <- !list_fmap_compose. Qed.

Lemma sum_reals l : Np.sum (reals l) = Fin (foldr Rplus 0 l).
Proof.
  unfold Np.sum, reals. induction l as [|x l IH]; first done.
  rewrite fmap_cons. cbn [foldr]. by rewrite IH.
Qed.

Lemma mean_reals l :
  l ≠ [] →
  Np.mean (reals l) = (Fin (foldr Rplus 0 l / INR (length l)), []).
Proof.
  intros Hne. unfold Np.mean. rewrite sum_reals. unfold reals.
  rewrite length_fmap.
  assert (length l ≠ 0%nat) as Hn by (by destruct l).
  rewrite decide_False by done. simpl.
  destruct (Req_dec_T (INR (length l)) 0) as [H0|_]; last done.
  by apply (INR_eq _ 0) in H0.
Qed.

Lemma mean_empty : Np.mean [] = (NaN, [Np.Mean_of_empty_slice]).
Proof.
  unfold Np.mean. simpl.
  destruct (Req_dec_T 0 0) as [_|H]; [done | by destruct H].
Qed.

(** The list sum of the pointwise terms is the indexed sum of the
    reference definitions. *)
Lemma foldr_zip_sum_f_R0 (f : R → R) T P :
  length T = length P → T ≠ [] →
  foldr Rplus 0 (f <$> zip_with Rminus T P)
  = sum_f_R0 (λ i, f (nth i T 0 - nth i P 0)) (length T - 1).
Proof.
  revert P. induction T as [|t T IH]; intros [|p P] Hlen Hne; try done.
  destruct T as [|t' T].
  - destruct P; last done. simpl. lra.
  - destruct P as [|p' P]; first done.
    injection Hlen as Hlen.
    specialize (IH (p' :: P)).
    replace (length (t :: t' :: T) - 1)%nat with (S (length T))
      by (simpl; lia).
    rewrite decomp_sum by lia. simpl in *.
    rewrite Nat.sub_0_r in IH.
    rewrite IH; [done | by f_equal | done].
Qed.

Lemma energy_MSE_reals T P :
  length T = length P → T ≠ [] →
  energy_MSE (reals T) (reals P)
  = Ok (Fin (foldr Rplus 0 ((λ d, d ^ 2) <$> zip_with Rminus T P)
             / INR (length T)), []).
Proof.
  intros Hlen Hne. unfold energy_MSE. rewrite subtract_reals by done.
  simpl. rewrite square_reals, mean_reals.
  - rewrite length_fmap, length_zip_with, <- Hlen, Nat.min_id. done.
  - destruct T, P; done.
Qed.

Lemma energy_MAE_reals T P :
  length T = length P → T ≠ [] →
  energy_MAE (reals T) (reals P)
  = Ok (Fin (foldr Rplus 0 (Rabs <$> zip_with Rminus T P)
             / INR (length T)), []).
Proof.
  intros Hlen Hne. unfold energy_MAE. rewrite subtract_reals by done.
  simpl. rewrite abs_reals, mean_reals.
  - rewrite length_fmap, length_zip_with, <- Hlen, Nat.min_id. done.
  - destruct T, P; done.
Qed.

Lemma energy_MSE_empty :
  energy_MSE (reals []) (reals []) = Ok (NaN, [Np.Mean_of_empty_slice]).
Proof.
  transitivity (Ok (Np.mean [])); first reflexivity.
  by rewrite mean_empty.
Qed.

Lemma energy_MAE_empty :
  energy_MAE (reals []) (reals []) = Ok (NaN, [Np.Mean_of_empty_slice]).
Proof.
  transitivity (Ok (Np.mean [])); first reflexivity.
  by rewrite mean_empty.
Qed.

Lemma foldr_Rplus_nonneg l : Forall (λ x, 0 <= x) l → 0 <= foldr Rplus 0 l.
Proof. induction 1; simpl; lra. Qed.

Lemma foldr_Rplus_zero l : Forall (λ x, x = 0) l → foldr Rplus 0 l = 0.
Proof. induction 1; simpl; lra. Qed.

Lemma zip_with_Rminus_diag T : Forall (λ x, x = 0) (zip_with Rminus T T).
Proof. induction T; simpl; constructor; [lra | done]. Qed.

Lemma Rdiv_nonneg (x y : R) : 0 <= x → 0 < y → 0 <= x / y.
Proof.
  intros Hx Hy. unfold Rdiv. apply Rmult_le_pos; first done.
  left. by apply Rinv_0_lt_compat.
Qed.

Lemma INR_length_pos T : T ≠ [] → 0 < INR (length T).
Proof. intros. destruct T; first done. apply lt_0_INR. simpl. lia. Qed.

End Metrics.

(** C1.  For true energies [T] and predicted energies [P] of equal length
    [N > 0], the two numbers the error cell computes are the reference
    definitions: the MSE is the mean of [(T_i - P_i)^2] and the MAE the mean
    of [|T_i - P_i|] over the [N] indices; no warning is issued. *)
Theorem metrics_match_reference (T P : list R) :
  length T = length P → (0 < length T)%nat →
  energy_MSE (reals T) (reals P) = Ok (Fin (MSE_reference T P), []) ∧
  energy_MAE (reals T) (reals P) = Ok (Fin (MAE_reference T P), []).
Proof.
  intros Hlen Hpos.
  assert (T ≠ []) as Hne by (destruct T; [simpl in Hpos; lia | done]).
  unfold MSE_reference, MAE_reference.
  rewrite energy_MSE_reals, energy_MAE_reals by done.
  by rewrite !foldr_zip_sum_f_R0.
Qed.

Lemma metrics_match_reference_witness :
  energy_MSE (reals [1; 3]) (reals [2; 1])
  = Ok (Fin (MSE_reference [1; 3] [2; 1]), []) ∧
  energy_MAE (reals [1; 3]) (reals [2; 1])
  = Ok (Fin (MAE_reference [1; 3] [2; 1]), []).
Proof.
  apply (metrics_match_reference [1; 3] [2; 1]); [reflexivity | simpl; lia].
Defined.

(** C2, as stated, fails on the empty pair of sequences: there [P] equals
    [T] elementwise, and both metrics are [nan], not [0]. *)
Lemma metrics_zero_on_equal_fails_on_empty :
  ¬ (∀ T P : list R, length T = length P → P = T →
       printed (energy_MSE (reals T) (reals P)) = Ok (Fin 0) ∧
       printed (energy_MAE (reals T) (reals P)) = Ok (Fin 0)).
Proof.
  intros H. destruct (H [] [] eq_refl eq_refl) as [Hmse _].
  rewrite energy_MSE_empty in Hmse. discriminate Hmse.
Qed.

(** C2, amended.  For every pair of non-empty equal-length energy sequences
    [T] and [P] with [P] equal to [T] elementwise, the computed MSE is [0]
    and the computed MAE is [0]. *)
Theorem metrics_zero_on_equal (T P : list R) :
  length T = length P → P = T → T ≠ [] →
  printed (energy_MSE (reals T) (reals P)) = Ok (Fin 0) ∧
  printed (energy_MAE (reals T) (reals P)) = Ok (Fin 0).
Proof.
  intros Hlen -> Hne.
  rewrite energy_MSE_reals, energy_MAE_reals by done. simpl.
  assert (0 < INR (length T)) as Hpos by by apply INR_length_pos.
  split; do 2 f_equal.
  - rewrite foldr_Rplus_zero; first by (unfold Rdiv; ring).
    apply Forall_fmap. eapply Forall_impl; first apply zip_with_Rminus_diag.
    intros x ->. simpl. ring.
  - rewrite foldr_Rplus_zero; first by (unfold Rdiv; ring).
    apply Forall_fmap. eapply Forall_impl; first apply zip_with_Rminus_diag.
    intros x ->. simpl. apply Rabs_R0.
Qed.

Lemma metrics_zero_on_equal_witness :
  printed (energy_MSE (reals [1; 3]) (reals [1; 3])) = Ok (Fin 0) ∧
  printed (energy_MAE (reals [1; 3]) (reals [1; 3])) = Ok (Fin 0).
Proof.
  apply (metrics_zero_on_equal [1; 3] [1; 3]);
    [reflexivity | reflexivity | discriminate].
Defined.

(** C3, as stated, fails on the empty pair of sequences: the metrics are
    [nan] there, and [nan >= 0] does not hold. *)
Lemma metrics_nonneg_fails_on_empty :
  ¬ (∀ T P : list R, length T = length P →
       ∃ mse mae,
         printed (energy_MSE (reals T) (reals P)) = Ok mse ∧ nonneg mse ∧
         printed (energy_MAE (reals T) (reals P)) = Ok mae ∧ nonneg mae).
Proof.
  intros H. destruct (H [] [] eq_refl) as (mse & mae & Hmse & Hnn & _).
  rewrite energy_MSE_empty in Hmse. injection Hmse as <-. exact Hnn.
Qed.

(** C3, amended.  For every pair of non-empty equal-length real-valued energy
    sequences [T] and [P], the computed MSE is non-negative and the computed
    MAE is non-negative. *)
Theorem metrics_nonneg (T P : list R) :
  length T = length P → T ≠ [] →
  ∃ mse mae,
    printed (energy_MSE (reals T) (reals P)) = Ok mse ∧ nonneg mse ∧
    printed (energy_MAE (reals T) (reals P)) = Ok mae ∧ nonneg mae.
Proof.
  intros Hlen Hne.
  rewrite energy_MSE_reals, energy_MAE_reals by done. simpl.
  assert (0 < INR (length T)) as Hpos by by apply INR_length_pos.
  eexists _, _. repeat split; simpl.
  - apply Rdiv_nonneg; last done.
    apply foldr_Rplus_nonneg, Forall_fmap, Forall_true.
    intros d. simpl. apply pow2_ge_0.
  - apply Rdiv_nonneg; last done.
    apply foldr_Rplus_nonneg, Forall_fmap, Forall_true.
    intros d. simpl. apply Rabs_pos.
Qed.

Lemma metrics_nonneg_witness :
  ∃ mse mae,
    printed (energy_MSE (reals [1; 3]) (reals [2; 1])) = Ok mse ∧ nonneg mse ∧
    printed (energy_MAE (reals [1; 3]) (reals [2; 1])) = Ok mae ∧ nonneg mae.
Proof.
  apply (metrics_nonneg [1; 3] [2; 1]); [reflexivity | discriminate].
Defined.

(** C4.  On an empty structure collection (true and predicted energies both
    of length 0) each metric is [0.0 / 0]: the value is [nan], which is not
    zero, and the "Mean of empty slice" warning is issued with it. *)
Theorem metrics_on_empty_are_nan :
  energy_MSE (reals []) (reals []) = Ok (NaN, [Np.Mean_of_empty_slice]) ∧
  energy_MAE (reals []) (reals []) = Ok (NaN, [Np.Mean_of_empty_slice]) ∧
  NaN ≠ Fin 0 ∧ ¬ nonneg NaN.
Proof.
  rewrite energy_MSE_empty, energy_MAE_empty.
  repeat split; [discriminate | intros []].
Qed.

(** ** Reading the trajectory *)

Section Reading.

Lemma string2index_every_tenth :
  string2index "::10" = Ok (Slice (mkSlice None None (Some 10%Z))).
Proof. reflexivity. Qed.

Lemma indices_every_tenth (len : Z) :
  indices (mkSlice None None (Some 10%Z)) len = Ok (0%Z, len, 10%Z).
Proof. reflexivity. Qed.

Lemma range_length_tenth (n : nat) :
  Z.to_nat (range_length 0 (Z.of_nat n) 10) = ((n + 9) / 10)%nat.
Proof.
  apply Nat2Z.inj. rewrite Nat2Z.inj_div, Nat2Z.inj_add. simpl Z.of_nat.
  unfold range_length. rewrite decide_True by lia.
  destruct (decide (0 < Z.of_nat n)%Z) as [Hpos|Hz].
  - rewrite Z2Nat.id by (Z.div_mod_to_equations; lia).
    Z.div_mod_to_equations; lia.
  - assert (n = 0%nat) as -> by lia. reflexivity.
Qed.

Lemma length_range_tenth (n : nat) :
  length (range 0 (Z.of_nat n) 10) = ((n + 9) / 10)%nat.
Proof. unfold range. by rewrite length_fmap, length_seq, range_length_tenth. Qed.

Lemma lookup_range_tenth (n k : nat) :
  (k < (n + 9) / 10)%nat →
  range 0 (Z.of_nat n) 10 !! k = Some (Z.of_nat (10 * k)).
Proof.
  intros Hk. unfold range. rewrite list_lookup_fmap, range_length_tenth.
  rewrite lookup_seq_lt by done. simpl. f_equal. lia.
Qed.

(** [ceil(n / 10)], by its two bounds. *)
Lemma ceil_tenth_bounds (n : nat) :
  (n ≤ 10 * ((n + 9) / 10) < n + 10)%nat.
Proof.
  pose proof (Nat.div_mod_eq (n + 9) 10).
  pose proof (Nat.mod_upper_bound (n + 9) 10). lia.
Qed.

Lemma getitem_lookup {A} (trj : list A) (i : Z) (a : A) :
  (0 ≤ i)%Z → trj !! Z.to_nat i = Some a → getitem trj i = Ok a.
Proof.
  intros Hi Ha. unfold getitem. rewrite decide_False by lia. by rewrite Ha.
Qed.

(** Indexing a list at in-range indices, one after the other. *)
Lemma for_append_getitem {A} (trj : list A) (ixs : list Z) :
  Forall (λ i, (0 ≤ i < Z.of_nat (length trj))%Z) ixs →
  ∃ items, for_append (getitem trj) ixs = Ok items ∧
    length items = length ixs ∧
    ∀ k i, ixs !! k = Some i → items !! k = trj !! Z.to_nat i.
Proof.
  induction 1 as [|i ixs [Hlo Hhi] _ (items & Hfor & Hlen & Hitems)].
  - exists []. by split_and!.
  - destruct (lookup_lt_is_Some_2 trj (Z.to_nat i)) as [a Ha]; first lia.
    exists (a :: items). split_and!.
    + cbn [for_append]. rewrite (getitem_lookup trj i a) by done.
      cbn [mbind result_bind]. by rewrite Hfor.
    + simpl. by rewrite Hlen.
    + intros [|k] j Hk; simpl in *.
      * by injection Hk as <-.
      * by apply Hitems.
Qed.

End Reading.

(** C6.  The dataset loader reads the trajectory with the index string
    "::10": from a stored trajectory of [N] entries it returns
    [ceil(N / 10)] structures, and the [i]-th of them is the stored entry at
    index [10 * i]. *)
Theorem load_training_every_tenth (trj : list Atoms) :
  ∃ training,
    load_training trj = Ok (Many training) ∧
    length training = ((length trj + 9) / 10)%nat ∧
    (length trj ≤ 10 * length training < length trj + 10)%nat ∧
    ∀ i, (i < length training)%nat → training !! i = trj !! (10 * i)%nat.
Proof.
  destruct (for_append_getitem trj (range 0 (Z.of_nat (length trj)) 10))
    as (training & Hfor & Hlen & Hitems).
  { apply Forall_lookup_2. intros k i Hk.
    assert (k < (length trj + 9) / 10)%nat as Hlt.
    { rewrite <- length_range_tenth. by eapply lookup_lt_Some. }
    rewrite lookup_range_tenth in Hk by done. injection Hk as <-.
    pose proof (ceil_tenth_bounds (length trj)). lia. }
  rewrite length_range_tenth in Hlen.
  exists training. split_and!.
  - unfold load_training, read. rewrite string2index_every_tenth.
    cbn [mbind result_bind]. rewrite indices_every_tenth.
    cbn [mbind result_bind]. by rewrite Hfor.
  - done.
  - rewrite Hlen. apply ceil_tenth_bounds.
  - rewrite Hlen. apply ceil_tenth_bounds.
  - intros i Hi. rewrite (Hitems i (Z.of_nat (10 * i))).
    + by rewrite Nat2Z.id.
    + apply lookup_range_tenth. by rewrite <- Hlen.
Qed.

(** ** Evenly spaced bond lengths and the loops over them *)

Section Loops.

Lemma length_arange (num : Z) : length (Np.arange num) = Z.to_nat num.
Proof. unfold Np.arange. by rewrite length_fmap, length_seq. Qed.

Lemma lookup_arange (num : Z) (i : nat) :
  (i < Z.to_nat num)%nat → Np.arange num !! i = Some (INR i).
Proof.
  intros Hi. unfold Np.arange.
  by rewrite list_lookup_fmap, lookup_seq_lt.
Qed.

Lemma linspace_length (start stop : R) (num : Z) (ds : list R) :
  Np.linspace start stop num = Ok ds → length ds = Z.to_nat num.
Proof.
  unfold Np.linspace. intros H.
  destruct (decide (num < 0)%Z); first done.
  injection H as <-.
  assert (∀ y : list R, length y = Z.to_nat num →
            length (if decide (1 < num)%Z then Np.set_last y stop else y)
            = Z.to_nat num) as Hlast.
  { intros y Hy. destruct (decide (1 < num)%Z); last done.
    unfold Np.set_last. by rewrite length_insert. }
  apply Hlast. rewrite length_fmap.
  destruct (decide (0 < num - 1)%Z);
    [destruct (Req_dec_T _ 0)|]; by rewrite length_fmap, length_arange.
Qed.

Lemma linspace_total (start stop : R) (num : Z) :
  (0 ≤ num)%Z → ∃ ds, Np.linspace start stop num = Ok ds.
Proof.
  intros Hnum. unfold Np.linspace. rewrite decide_False by lia. eauto.
Qed.

(** The [i]-th sample sits [i] steps of [(stop - start) / (num - 1)] above
    [start]. *)
Lemma linspace_lookup (start stop : R) (num : Z) (ds : list R) (i : nat) :
  (2 ≤ num)%Z → (i < Z.to_nat num)%nat →
  Np.linspace start stop num = Ok ds →
  ds !! i = Some (start + INR i * ((stop - start) / IZR (num - 1))).
Proof.
  intros Hnum Hi. unfold Np.linspace.
  rewrite (decide_False (P:=(num < 0)%Z)),
    (decide_True (P:=(0 < num - 1)%Z)), (decide_True (P:=(1 < num)%Z))
    by lia.
  intros H. injection H as <-.
  assert (0 < IZR (num - 1)) as Hdiv by (apply IZR_lt; lia).
  set (y := (λ v, v + start) <$> _).
  assert (length y = Z.to_nat num) as Hy.
  { unfold y. rewrite length_fmap.
    destruct (Req_dec_T _ 0); by rewrite length_fmap, length_arange. }
  assert (y !! i = Some (start + INR i * ((stop - start) / IZR (num - 1))))
    as Hyi.
  { unfold y. rewrite list_lookup_fmap.
    destruct (Req_dec_T _ 0) as [Hz|Hnz];
      rewrite list_lookup_fmap, lookup_arange by done; simpl; f_equal.
    - rewrite Hz. unfold Rdiv in Hz.
      apply Rmult_integral in Hz as [Hz|Hz].
      + rewrite Hz. ring.
      + apply Rinv_neq_0_compat in Hz; [done | lra].
    - lra. }
  unfold Np.set_last. rewrite Hy.
  destruct (decide (i = pred (Z.to_nat num))) as [->|Hne].
  - rewrite list_lookup_insert_eq by lia. f_equal.
    replace (INR (pred (Z.to_nat num))) with (IZR (num - 1)).
    + field. lra.
    + rewrite INR_IZR_INZ. f_equal. lia.
  - by rewrite list_lookup_insert_ne.
Qed.

Lemma linspace_bounds (start stop : R) (num : Z) (ds : list R) :
  (2 ≤ num)%Z → start < stop →
  Np.linspace start stop num = Ok ds →
  ∀ i d, ds !! i = Some d → start <= d <= stop.
Proof.
  intros Hnum Hlt Hds i d Hd.
  pose proof (linspace_length _ _ _ _ Hds) as Hlen.
  assert (i < Z.to_nat num)%nat as Hi.
  { rewrite <- Hlen. by eapply lookup_lt_Some. }
  rewrite (linspace_lookup start stop num ds i) in Hd by done.
  injection Hd as <-.
  assert (0 < IZR (num - 1)) as Hdiv by (apply IZR_lt; lia).
  assert (0 <= INR i <= IZR (num - 1)) as [Hi0 Hi1].
  { split; first apply pos_INR. rewrite INR_IZR_INZ. apply IZR_le. lia. }
  assert (INR i * ((stop - start) / IZR (num - 1))
          = (stop - start) * (INR i / IZR (num - 1)))
    as -> by (field; lra).
  assert (0 <= INR i / IZR (num - 1) <= 1) as [Hq0 Hq1].
  { split.
    - apply Rdiv_nonneg; done.
    - apply (Rmult_le_reg_r (IZR (num - 1))); first done.
      replace (INR i / IZR (num - 1) * IZR (num - 1)) with (INR i)
        by (field; lra). lra. }
  nra.
Qed.

Lemma for_append_Forall2 {A B} (body : A → result B) xs ys :
  for_append body xs = Ok ys → Forall2 (λ x y, body x = Ok y) xs ys.
Proof.
  revert ys. induction xs as [|x xs IH]; intros ys H; simpl in H.
  - injection H as <-. constructor.
  - destruct (body x) as [y|] eqn:Hx; last done. simpl in H.
    destruct (for_append body xs) as [ys'|]; last done. simpl in H.
    injection H as <-. constructor; [done | by apply IH].
Qed.

Lemma for_append_total {A B} (body : A → result B) xs :
  (∀ x, ∃ y, body x = Ok y) → ∃ ys, for_append body xs = Ok ys.
Proof.
  intros Hbody. induction xs as [|x xs [ys IH]]; first by exists [].
  destruct (Hbody x) as [y Hy]. exists (y :: ys).
  simpl. rewrite Hy. simpl. by rewrite IH.
Qed.

End Loops.

(** ** Structures: construction and the invariant *)

Section Structures.

Lemma string2symbols_CuCO : string2symbols "CuCO" = Ok ["Cu"; "C"; "O"].
Proof. reflexivity. Qed.

Lemma string2symbols_OHH : string2symbols "OHH" = Ok ["O"; "H"; "H"].
Proof. reflexivity. Qed.

Lemma new_Atoms_Ok formula pos a :
  new_Atoms formula pos = Ok a →
  matching (geometry a) ∧ positions (geometry a) = pos ∧ calc a = None.
Proof.
  unfold new_Atoms. destruct (string2symbols formula) as [syms|]; last done.
  cbn [mbind result_bind]. destruct (decide _) as [Hlen|]; last done.
  intros H. injection H as <-. by split_and!.
Qed.

Lemma consistent_with_geometry a g :
  consistent a →
  symbols g = symbols (geometry a) →
  length (positions g) = length (positions (geometry a)) →
  consistent (with_geometry a g).
Proof.
  intros [Hm Hf] Hs Hp. split.
  - unfold matching in *. simpl. by rewrite Hs, Hp.
  - unfold stored_forces in *. simpl. by rewrite Hs.
Qed.

Lemma consistent_set_cell a c : consistent a → consistent (set_cell a c).
Proof. intros. by apply consistent_with_geometry. Qed.

Lemma consistent_set_pbc a p : consistent a → consistent (set_pbc a p).
Proof. intros. by apply consistent_with_geometry. Qed.

Lemma consistent_center a v : consistent a → consistent (center a v).
Proof.
  intros. unfold center.
  destruct (cell (geometry a)) as [[cx cy] cz].
  do 3 destruct (center_axis _ _ _).
  apply consistent_with_geometry; [done..|]. simpl. by rewrite length_fmap.
Qed.

Lemma consistent_wrap a p a' :
  wrap a p = Ok a' → consistent a → consistent a'.
Proof.
  unfold wrap. destruct p as [[px py] pz].
  destruct (cell (geometry a)) as [[cx cy] cz] eqn:Hc.
  destruct (_ && _); last done. intros H Ha. injection H as <-.
  apply consistent_with_geometry; [done..|]. simpl. by rewrite length_fmap.
Qed.

Lemma consistent_set_distance a a0 a1 d a' :
  set_distance a a0 a1 d = Ok a' → consistent a → consistent a'.
Proof.
  unfold set_distance. destruct (decide (_ = 0%nat)); first done.
  destruct (decide (_ `mod` _ = _)); first done.
  destruct (_ !! a0) as [r0|]; last done.
  destruct (_ !! a1) as [r1|]; last done.
  destruct (Req_dec_T _ 0); first done. intros H Ha. injection H as <-.
  apply consistent_with_geometry; [done..|]. simpl.
  by rewrite !length_insert.
Qed.

(** Attaching a calculator that stores no forces. *)
Lemma consistent_set_calculator a c :
  (∀ g e f, c ≠ SinglePointCalculator g e f) →
  consistent a → consistent (set_calculator a c).
Proof.
  intros Hc [Hm _]. split; first done.
  unfold stored_forces. simpl. destruct c; try done.
  by destruct (Hc atoms energy0 forces).
Qed.

Lemma consistent_new_Atoms formula pos a :
  new_Atoms formula pos = Ok a → consistent a.
Proof.
  intros (Hm & _ & Hc)%new_Atoms_Ok. split; first done.
  unfold stored_forces. by rewrite Hc.
Qed.

(** One pass of the CuCO loop, evaluated. *)
Lemma CuCO_image_Ok (dist : R) :
  CuCO_image dist =
  Ok {| geometry :=
          {| symbols := ["Cu"; "C"; "O"];
             positions :=
               wrap_position (true, true, true) (10, 10, 10) <$>
                 [(- dist * sin 0.65, dist * cos 0.65, 0);
                  (0, 0, 0);
                  (dist * sin 0.65, dist * cos 0.65, 0)];
             cell := (10, 10, 10);
             pbc := (false, false, false) |};
        calc := Some (EMT None) |}.
Proof.
  unfold CuCO_image, new_Atoms. rewrite string2symbols_CuCO.
  cbn [mbind result_bind]. rewrite decide_True by done.
  cbn [mbind result_bind]. unfold wrap, set_cell, with_geometry.
  cbn [geometry cell symbols positions pbc calc].
  unfold edge_ok. destruct (Req_dec_T 10 0) as [H|_]; first lra.
  reflexivity.
Qed.

Lemma consistent_CuCO_image dist image :
  CuCO_image dist = Ok image → consistent image.
Proof. rewrite CuCO_image_Ok. intros H. injection H as <-. by split. Qed.

Lemma molecule_H2O_Ok (vacuum : R) :
  ∃ a, molecule_H2O vacuum = Ok a ∧ consistent a ∧ calc a = None ∧
    ∃ t, positions (geometry a) =
         (λ v, vadd v t) <$>
           [(0, 0, 0.119262); (0, 0.763239, -0.477047);
            (0, -0.763239, -0.477047)].
Proof.
  unfold molecule_H2O.
  destruct (new_Atoms "OHH" [(0, 0, 0.119262); (0, 0.763239, -0.477047);
                             (0, -0.763239, -0.477047)]) as [a|] eqn:Ha.
  - pose proof (consistent_new_Atoms _ _ _ Ha) as Hcons.
    apply new_Atoms_Ok in Ha as (_ & Hpos & Hcalc).
    exists (center a vacuum). split_and!; [done | by apply consistent_center | |].
    + unfold center. destruct (cell _) as [[? ?] ?].
      by do 3 destruct (center_axis _ _ _).
    + unfold center. destruct (cell _) as [[? ?] ?].
      destruct (center_axis _ _ _) as [ex tx].
      destruct (center_axis _ _ _) as [ey ty].
      destruct (center_axis _ _ _) as [ez tz].
      exists (tx, ty, tz). simpl. by rewrite Hpos.
  - unfold new_Atoms in Ha. rewrite string2symbols_OHH in Ha.
    cbn [mbind result_bind] in Ha. by rewrite decide_True in Ha.
Qed.

(** The O-H separation of the G2 geometry is not zero. *)
Lemma H2O_separation (t : vec3) :
  norm (vsub (vadd (0, -0.763239, -0.477047) t) (vadd (0, 0, 0.119262) t))
  ≠ 0.
Proof.
  destruct t as [[tx ty] tz]. unfold norm, vsub, vadd.
  intros H. apply sqrt_eq_0 in H; nra.
Qed.

Lemma H2O_image_total (dist : R) :
  ∃ image, H2O_image dist = Ok image ∧ consistent image.
Proof.
  unfold H2O_image.
  destruct (molecule_H2O_Ok 10.0) as (a & -> & Hcons & Hcalc & t & Hpos).
  cbn [mbind result_bind].
  destruct (set_distance (set_pbc (set_cell a (10, 10, 10)) (true, true, true))
              0 2 dist) as [image|e] eqn:Hsd.
  - exists image. split; first done.
    eapply consistent_set_distance; first done.
    by apply consistent_set_pbc, consistent_set_cell.
  - exfalso. unfold set_distance in Hsd.
    cbn [set_pbc set_cell with_geometry geometry positions] in Hsd.
    rewrite Hpos in Hsd. simpl in Hsd.
    destruct (Req_dec_T _ 0) as [H0|_]; last done.
    by apply (H2O_separation t) in H0.
Qed.

Lemma consistent_H2O_image dist image :
  H2O_image dist = Ok image → consistent image.
Proof.
  destruct (H2O_image_total dist) as (image' & -> & Hcons).
  intros H. by injection H as <-.
Qed.

End Structures.

Section Collections.

Lemma CuCO_images_total start stop num :
  (0 ≤ num)%Z →
  ∃ images, CuCO_images start stop num = Ok images ∧
            length images = Z.to_nat num.
Proof.
  intros Hnum. unfold CuCO_images.
  destruct (linspace_total start stop num Hnum) as [ds Hds]. rewrite Hds.
  cbn [mbind result_bind].
  destruct (for_append_total CuCO_image ds) as [images Himages].
  { intros x. rewrite CuCO_image_Ok. eauto. }
  exists images. split; first done.
  apply for_append_Forall2, Forall2_length in Himages.
  rewrite <- Himages. by eapply linspace_length.
Qed.

Lemma H2O_images_total start stop num :
  (0 ≤ num)%Z →
  ∃ images, H2O_images start stop num = Ok images ∧
            length images = Z.to_nat num.
Proof.
  intros Hnum. unfold H2O_images.
  destruct (linspace_total start stop num Hnum) as [ds Hds]. rewrite Hds.
  cbn [mbind result_bind].
  destruct (for_append_total H2O_image ds) as [images Himages].
  { intros x. destruct (H2O_image_total x) as (image & ? & _). eauto. }
  exists images. split; first done.
  apply for_append_Forall2, Forall2_length in Himages.
  rewrite <- Himages. by eapply linspace_length.
Qed.


End Collections.

Section Deserializing.

Lemma Forall2_Ok_Forall {A B} (P : B → Prop) (body : A → result B) xs ys :
  (∀ x y, body x = Ok y → P y) →
  Forall2 (λ x y, body x = Ok y) xs ys → Forall P ys.
Proof. intros Hbody. induction 1; constructor; eauto. Qed.

Lemma CuCO_image_no_forces dist image :
  CuCO_image dist = Ok image → stored_forces image = None.
Proof. rewrite CuCO_image_Ok. intros H. by injection H as <-. Qed.

Lemma set_distance_calc a a0 a1 d a' :
  set_distance a a0 a1 d = Ok a' → calc a' = calc a.
Proof.
  unfold set_distance. destruct (decide (_ = 0%nat)); first done.
  destruct (decide (_ `mod` _ = _)); first done.
  destruct (_ !! a0) as [r0|]; last done.
  destruct (_ !! a1) as [r1|]; last done.
  destruct (Req_dec_T _ 0); first done. intros H. by injection H as <-.
Qed.

Lemma H2O_image_no_forces dist image :
  H2O_image dist = Ok image → stored_forces image = None.
Proof.
  unfold H2O_image.
  destruct (molecule_H2O_Ok 10.0) as (a & -> & _ & Hcalc & _).
  cbn [mbind result_bind].
  destruct (set_distance _ 0 2 dist) as [image'|] eqn:Hsd; last done.
  cbn [mbind result_bind]. intros H. injection H as <-.
  apply set_distance_calc in Hsd. unfold stored_forces. rewrite Hsd.
  simpl. by rewrite Hcalc.
Qed.

(** What a successfully read image is made of. *)
Lemma TrajectoryReader_getitem_inv file j a :
  TrajectoryReader_getitem file j = Ok a →
  (0 ≤ j)%Z ∧
  ∃ b, file !! Z.to_nat j = Some b ∧
       length (frame_positions b) = length (frame_symbols b) ∧
       symbols (geometry a) = frame_symbols b ∧
       positions (geometry a) = frame_positions b ∧
       stored_forces a = frame_forces b.
Proof.
  unfold TrajectoryReader_getitem, getitem.
  destruct (decide (j < 0)%Z) as [|Hj]; first done.
  destruct (file !! Z.to_nat j) as [b|]; last done.
  cbn [mbind result_bind]. unfold read_atoms.
  destruct (decide _) as [Hlen|]; last done. cbn [mbind result_bind].
  intros H. split; first lia. exists b. split; first done.
  split; first done. unfold frame_forces.
  destruct (frame_calculator b) as [[energy forces]|];
    injection H as <-; by split_and!.
Qed.

Lemma TrajectoryReader_getitem_Ok file j b :
  (0 ≤ j)%Z → file !! Z.to_nat j = Some b →
  length (frame_positions b) = length (frame_symbols b) →
  ∃ a, TrajectoryReader_getitem file j = Ok a.
Proof.
  intros Hj Hb Hlen. unfold TrajectoryReader_getitem.
  rewrite (getitem_lookup file j b) by done. cbn [mbind result_bind].
  unfold read_atoms. rewrite decide_True by done. cbn [mbind result_bind].
  destruct (frame_calculator b) as [[energy forces]|]; by eexists.
Qed.

Lemma for_append_total_Forall {A B} (body : A → result B) xs :
  Forall (λ x, ∃ y, body x = Ok y) xs →
  ∃ ys, for_append body xs = Ok ys ∧ length ys = length xs.
Proof.
  induction 1 as [|x xs [y Hy] _ (ys & IH & Hlen)]; first by exists [].
  exists (y :: ys). simpl. rewrite Hy. simpl. rewrite IH. simpl.
  by rewrite Hlen.
Qed.

Lemma load_training_file_Many file training :
  load_training_file file = Ok (Many training) →
  for_append (TrajectoryReader_getitem file)
    (range 0 (Z.of_nat (length file)) 10) = Ok training.
Proof.
  unfold load_training_file, read_traj. rewrite string2index_every_tenth.
  cbn [mbind result_bind]. rewrite indices_every_tenth.
  cbn [mbind result_bind].
  destruct (for_append _ _) as [items|]; last done.
  intros H. by injection H as <-.
Qed.

Lemma for_append_ext {A B} (f g : A → result B) xs :
  (∀ x, f x = g x) → for_append f xs = for_append g xs.
Proof.
  intros Hfg. induction xs as [|x xs IH]; first done.
  cbn [for_append]. by rewrite Hfg, IH.
Qed.

(** When every stored image builds, indexing the file is indexing the list
    of the structures built from it. *)
Lemma TrajectoryReader_getitem_built file trj :
  for_append (TrajectoryReader_getitem file)
    ((λ k : nat, Z.of_nat k) <$> seq 0 (length file)) = Ok trj →
  length trj = length file ∧
  ∀ i, TrajectoryReader_getitem file i = getitem trj i.
Proof.
  intros H%for_append_Forall2.
  pose proof (Forall2_length _ _ _ H) as Hlen.
  rewrite length_fmap, length_seq in Hlen. split; first done. intros i.
  destruct (decide (i < 0)%Z) as [Hneg|Hpos].
  { unfold TrajectoryReader_getitem, getitem. by rewrite !decide_True. }
  destruct (decide (Z.to_nat i < length file)%nat) as [Hin|Hout].
  - assert (((λ k : nat, Z.of_nat k) <$> seq 0 (length file))
              !! Z.to_nat i = Some i) as Hi.
    { rewrite list_lookup_fmap, lookup_seq_lt by done. simpl. f_equal. lia. }
    destruct (Forall2_lookup_l _ _ _ _ _ H Hi) as (a & Ha & ->).
    symmetry. apply getitem_lookup; [lia | done].
  - unfold TrajectoryReader_getitem, getitem. rewrite !decide_False by done.
    by rewrite !lookup_ge_None_2 by lia.
Qed.

(** Then reading the file is [read] on that list, whatever the index. *)
Lemma read_traj_read file trj s :
  for_append (TrajectoryReader_getitem file)
    ((λ k : nat, Z.of_nat k) <$> seq 0 (length file)) = Ok trj →
  read_traj file s = read trj s.
Proof.
  intros [Hlen Hget]%TrajectoryReader_getitem_built.
  unfold read_traj, read. rewrite Hlen.
  destruct (string2index s) as [[i|sl]|]; [|  |done];
    cbn [mbind result_bind];
    (destruct (indices _ _) as [[[start stop] step]|]; last done);
    cbn [mbind result_bind].
  - destruct (range _ _ _); first done. by rewrite Hget.
  - by rewrite (for_append_ext _ (getitem trj)).
Qed.

End Deserializing.

(** C7, as stated, fails for a deserialized record: the loader checks the
    positions against the symbols when it builds the structure, but hands
    the stored force array to the calculator as it is.  A stored image of
    three atoms with a force array of one row is loaded without error. *)
Lemma deserialized_forces_unchecked :
  ¬ ((∀ start stop num images,
        CuCO_images start stop num = Ok images → Forall consistent images) ∧
     (∀ start stop num images,
        H2O_images start stop num = Ok images → Forall consistent images) ∧
     (∀ file training,
        load_training_file file = Ok (Many training) →
        Forall consistent training)).
Proof.
  intros (_ & _ & Hread).
  assert (load_training_file [short_forces_frame]
          = Ok (Many [set_calculator
                        {| geometry := training_0_geometry; calc := None |}
                        (SinglePointCalculator training_0_geometry
                           (Some (Fin (-593.3815601078402)))
                           (Some [(0, 0, 0)]))])) as Hload by reflexivity.
  apply Hread in Hload. apply Forall_inv in Hload as [_ Hforces].
  simpl in Hforces. discriminate Hforces.
Qed.

(** C7, amended.  Every structure the workflow constructs has as many
    symbols as position 3-vectors.  A structure synthesized in a generation
    loop carries no stored force matrix.  A structure deserialized from the
    trajectory file is the stored image at ten times its index and carries
    the force array stored with that image, unchecked: its force matrix is
    N-by-3 exactly when the stored array has N rows.  Loading returns
    whenever every stored image has as many positions as symbols. *)
Theorem constructed_structures_counts :
  (∀ start stop num images,
     CuCO_images start stop num = Ok images →
     Forall (λ a, consistent a ∧ stored_forces a = None) images) ∧
  (∀ start stop num images,
     H2O_images start stop num = Ok images →
     Forall (λ a, consistent a ∧ stored_forces a = None) images) ∧
  (∀ file training,
     load_training_file file = Ok (Many training) →
     ∀ i a, training !! i = Some a →
       matching (geometry a) ∧
       ∃ b, file !! (10 * i)%nat = Some b ∧
            get_chemical_symbols a = frame_symbols b ∧
            get_positions a = frame_positions b ∧
            stored_forces a = frame_forces b ∧
            (consistent a ↔
             match frame_forces b with
             | Some F => length F = length (frame_symbols b)
             | None => True
             end)) ∧
  (∀ file,
     Forall (λ b, length (frame_positions b) = length (frame_symbols b))
       file →
     ∃ training, load_training_file file = Ok (Many training) ∧
                 length training = ((length file + 9) / 10)%nat).
Proof.
  split_and!.
  - intros start stop num images. unfold CuCO_images.
    destruct (Np.linspace _ _ _) as [ds|]; last done.
    cbn [mbind result_bind]. intros H%for_append_Forall2.
    eapply Forall2_Ok_Forall; last done. intros x y Hy.
    split; [by eapply consistent_CuCO_image | by eapply CuCO_image_no_forces].
  - intros start stop num images. unfold H2O_images.
    destruct (Np.linspace _ _ _) as [ds|]; last done.
    cbn [mbind result_bind]. intros H%for_append_Forall2.
    eapply Forall2_Ok_Forall; last done. intros x y Hy.
    split; [by eapply consistent_H2O_image | by eapply H2O_image_no_forces].
  - intros file training Hfor%load_training_file_Many i a Hi.
    apply for_append_Forall2 in Hfor.
    destruct (Forall2_lookup_r _ _ _ _ _ Hfor Hi) as (j & Hj & Hbody).
    assert (i < (length file + 9) / 10)%nat as Hlt.
    { rewrite <- length_range_tenth. by eapply lookup_lt_Some. }
    rewrite lookup_range_tenth in Hj by done. injection Hj as <-.
    apply TrajectoryReader_getitem_inv in Hbody
      as (_ & b & Hb & Hlen & Hs & Hp & Hf).
    rewrite Nat2Z.id in Hb.
    assert (matching (geometry a)) as Hm
      by (unfold matching; by rewrite Hs, Hp).
    split; first done. exists b. split_and!; try done.
    unfold consistent. rewrite Hf, Hs. tauto.
  - intros file Hfile.
    destruct (for_append_total_Forall (TrajectoryReader_getitem file)
                (range 0 (Z.of_nat (length file)) 10))
      as (training & Hfor & Hlen).
    { apply Forall_lookup_2. intros k j Hk.
      assert (k < (length file + 9) / 10)%nat as Hlt.
      { rewrite <- length_range_tenth. by eapply lookup_lt_Some. }
      rewrite lookup_range_tenth in Hk by done. injection Hk as <-.
      pose proof (ceil_tenth_bounds (length file)).
      destruct (lookup_lt_is_Some_2 file (10 * k)) as [b Hb]; first lia.
      apply (TrajectoryReader_getitem_Ok file _ b); first lia.
      - by rewrite Nat2Z.id.
      - by eapply (proj1 (Forall_lookup _ _) Hfile). }
    exists training. split; last by rewrite Hlen, length_range_tenth.
    unfold load_training_file, read_traj. rewrite string2index_every_tenth.
    cbn [mbind result_bind]. rewrite indices_every_tenth.
    cbn [mbind result_bind]. by rewrite Hfor.
Qed.

Lemma constructed_structures_counts_witness :
  (∃ images, images_BP = Ok images ∧
     Forall (λ a, consistent a ∧ stored_forces a = None) images) ∧
  (∃ images, images_GMP = Ok images ∧
     Forall (λ a, consistent a ∧ stored_forces a = None) images) ∧
  load_training_file [training_0_frame] = Ok (Many [training_0]) ∧
  matching (geometry training_0) ∧ consistent training_0.
Proof.
  destruct constructed_structures_counts as (Hcu & Hwater & Hread & _).
  split_and!.
  - destruct (CuCO_images_total 2 5 100) as (images & Himages & _); first lia.
    exists images. split; [exact Himages | exact (Hcu 2 5 100%Z images Himages)].
  - destruct (H2O_images_total 0.8 1.2 100) as (images & Himages & _);
      first lia.
    exists images.
    split; [exact Himages | exact (Hwater 0.8 1.2 100%Z images Himages)].
  - reflexivity.
  - exact (proj1 (Hread [training_0_frame] [training_0] eq_refl
                    0%nat training_0 eq_refl)).
  - destruct (Hread [training_0_frame] [training_0] eq_refl
                0%nat training_0 eq_refl) as (_ & b & Hb & _ & _ & _ & Hiff).
    injection Hb as <-. apply Hiff. reflexivity.
Defined.

(** ** The CuCO geometry after wrapping *)

Section Wrapping.

Lemma frac_part_unit (r : R) : 0 <= r < 1 → frac_part r = r.
Proof.
  intros [H0 H1]. unfold frac_part.
  rewrite <- (Int_part_spec r 0); simpl; lra.
Qed.

Lemma frac_part_below (r : R) : -1 <= r < 0 → frac_part r = r + 1.
Proof.
  intros [H0 H1]. unfold frac_part.
  rewrite <- (Int_part_spec r (-1)); simpl; lra.
Qed.

(** A coordinate already inside the cell stays where it is. *)
Lemma wrap_coordinate_inside (edge x : R) :
  0 < edge → 0 <= x → x < edge * (1 - eps) →
  wrap_coordinate true edge x = x.
Proof.
  intros He H0 H1. unfold wrap_coordinate.
  assert (0 < eps) as Heps by (unfold eps; lra).
  assert (0 <= x / edge) as Hq0 by (apply Rdiv_nonneg; done).
  assert (x / edge < 1 - eps) as Hq1.
  { apply (Rmult_lt_reg_r edge); first done.
    replace (x / edge * edge) with x by (field; lra). lra. }
  rewrite frac_part_unit by lra. field. lra.
Qed.

(** A coordinate one period below the cell moves up by one edge. *)
Lemma wrap_coordinate_below (edge x : R) :
  0 < edge → - edge <= x → x < - (edge * eps) →
  wrap_coordinate true edge x = x + edge.
Proof.
  intros He H0 H1. unfold wrap_coordinate.
  assert (0 < eps) as Heps by (unfold eps; lra).
  assert (-1 <= x / edge) as Hq0.
  { apply (Rmult_le_reg_r edge); first done.
    replace (x / edge * edge) with x by (field; lra). lra. }
  assert (x / edge < - eps) as Hq1.
  { apply (Rmult_lt_reg_r edge); first done.
    replace (x / edge * edge) with x by (field; lra). lra. }
  rewrite frac_part_below by lra. field. lra.
Qed.

Lemma sin_065_bounds : 1 / 2 < sin 0.65 < 1.
Proof.
  assert (0.65 <= PI) by (pose proof PI2_1; lra).
  destruct (SIN 0.65) as [Hlb _]; [lra | done |].
  unfold sin_lb, sin_approx, sin_term in Hlb.
  simpl in Hlb. unfold Rdiv in Hlb. simpl in Hlb.
  pose proof (sin_lt_x 0.65). split; lra.
Qed.

Lemma cos_065_bounds : 0 < cos 0.65 <= 1.
Proof.
  split.
  - apply cos_gt_0; pose proof PI2_1; lra.
  - apply COS_bound.
Qed.

Lemma CuCO_wrapped_positions (dist : R) :
  2 <= dist <= 5 →
  wrap_position (true, true, true) (10, 10, 10) <$>
    [(- dist * sin 0.65, dist * cos 0.65, 0);
     (0, 0, 0);
     (dist * sin 0.65, dist * cos 0.65, 0)]
  = [(10 - dist * sin 0.65, dist * cos 0.65, 0);
     (0, 0, 0);
     (dist * sin 0.65, dist * cos 0.65, 0)].
Proof.
  intros [Hlo Hhi].
  pose proof sin_065_bounds as [Hs0 Hs1].
  pose proof cos_065_bounds as [Hc0 Hc1].
  assert (1 < dist * sin 0.65 < 5) as [Hds0 Hds1] by nra.
  assert (0 < dist * cos 0.65 <= 5) as [Hdc0 Hdc1] by nra.
  assert (eps = 1e-7) as Heps by done.
  cbn [fmap list_fmap wrap_position].
  rewrite (wrap_coordinate_below 10 (- dist * sin 0.65)) by lra.
  rewrite (wrap_coordinate_inside 10 (dist * cos 0.65)) by lra.
  rewrite (wrap_coordinate_inside 10 (dist * sin 0.65)) by lra.
  rewrite (wrap_coordinate_inside 10 0) by lra.
  repeat f_equal. ring.
Qed.

Lemma CuCO_image_positions (dist : R) (image : Atoms) :
  2 <= dist <= 5 → CuCO_image dist = Ok image →
  get_positions image
  = [(10 - dist * sin 0.65, dist * cos 0.65, 0);
     (0, 0, 0);
     (dist * sin 0.65, dist * cos 0.65, 0)].
Proof.
  intros Hd. rewrite CuCO_image_Ok. intros H. injection H as <-.
  unfold get_positions. cbn [geometry positions].
  by apply CuCO_wrapped_positions.
Qed.

(** [sin(0.65)^2 + cos(0.65)^2 = 1]: the arms have length [dist]. *)
Lemma arm_length (dist : R) :
  0 <= dist →
  distance (dist * sin 0.65, dist * cos 0.65, 0) (0, 0, 0) = dist ∧
  distance (- dist * sin 0.65, dist * cos 0.65, 0) (0, 0, 0) = dist.
Proof.
  intros Hd. pose proof (sin2_cos2 0.65) as Hsc. unfold Rsqr in Hsc.
  unfold distance, norm, vsub.
  split; rewrite <- (sqrt_pow2 dist Hd) at 3; f_equal; nra.
Qed.

(** The wrapped outer atom is farther from the centre than [dist]. *)
Lemma wrapped_arm_length (dist : R) :
  2 <= dist <= 5 →
  dist < distance (10 - dist * sin 0.65, dist * cos 0.65, 0) (0, 0, 0).
Proof.
  intros [Hlo Hhi]. pose proof (sin2_cos2 0.65) as Hsc. unfold Rsqr in Hsc.
  pose proof sin_065_bounds as [Hs0 Hs1].
  unfold distance, norm, vsub.
  rewrite <- (sqrt_pow2 dist) at 1 by lra.
  apply sqrt_lt_1_alt. split; nra.
Qed.

Lemma CuCO_image_distances (dist : R) (image : Atoms) :
  2 <= dist <= 5 → CuCO_image dist = Ok image →
  get_distance image 2 1 = Ok dist ∧
  ∃ d0, get_distance image 0 1 = Ok d0 ∧ dist < d0.
Proof.
  intros Hd Himage. unfold get_distance.
  rewrite (CuCO_image_positions dist image) by done.
  cbn [lookup list_lookup].
  destruct (arm_length dist) as [Harm _]; first lra.
  pose proof (wrapped_arm_length dist Hd) as Hwrapped.
  unfold distance, norm, vsub in *. split.
  - f_equal. rewrite <- Harm at 3. f_equal. ring.
  - eexists. split; first done.
    eapply Rlt_le_trans; first exact Hwrapped.
    apply Req_le. f_equal. ring.
Qed.

Lemma images_BP_lookup distances images i image :
  Np.linspace 2 5 100 = Ok distances → images_BP = Ok images →
  images !! i = Some image →
  ∃ dist, distances !! i = Some dist ∧ 2 <= dist <= 5 ∧
          CuCO_image dist = Ok image.
Proof.
  intros Hds. unfold images_BP, CuCO_images. rewrite Hds.
  cbn [mbind result_bind]. intros Hall%for_append_Forall2 Hi.
  destruct (Forall2_lookup_r _ _ _ _ _ Hall Hi) as (dist & Hdist & Himage).
  exists dist. split; [done | split; [| done]].
  eapply (linspace_bounds 2 5 100 distances); [lia | lra | done | done].
Qed.

End Wrapping.

(** C10, as stated, fails on the first structure of the loop already: the
    loop wraps every structure into its cell, which moves atom 0 from
    [x = -dist*sin(0.65)] to [x = 10 - dist*sin(0.65)]. *)
Lemma CuCO_mirror_positions_fail :
  ¬ (∀ images, images_BP = Ok images →
       ∀ i image, images !! i = Some image →
         ∃ dist,
           get_positions image
           = [(- dist * sin 0.65, dist * cos 0.65, 0);
              (0, 0, 0);
              (dist * sin 0.65, dist * cos 0.65, 0)] ∧
           get_distance image 0 1 = Ok dist ∧
           get_distance image 2 1 = Ok dist).
Proof.
  intros Hclaim.
  destruct (linspace_total 2 5 100) as [distances Hds]; first lia.
  destruct (CuCO_images_total 2 5 100) as (images & Himages & Hlen);
    first lia.
  destruct images as [|image images]; first discriminate Hlen.
  destruct (Hclaim _ Himages 0%nat image eq_refl) as (dist' & Hpos' & _).
  destruct (images_BP_lookup distances _ 0%nat image Hds Himages eq_refl)
    as (dist & _ & Hdist & Himage).
  rewrite (CuCO_image_positions dist image Hdist Himage) in Hpos'.
  injection Hpos' as H0 _ H2. lra.
Qed.

(** C10, amended.  Every synthetic CuCO structure produced by the generation
    loop is mirror-symmetric about the central atom up to one period of the
    cell: for each bond length [dist], atom 1 sits at the origin, atom 2 at
    [(dist*sin(0.65), dist*cos(0.65), 0)], and atom 0 at
    [(10 - dist*sin(0.65), dist*cos(0.65), 0)], the mirror position
    [(-dist*sin(0.65), dist*cos(0.65), 0)] moved by the cell edge 10 along x.
    Atom 2 and the mirror position are at exact Euclidean distance [dist]
    from atom 1, since [sin(0.65)^2 + cos(0.65)^2 = 1]. *)
Theorem CuCO_structures_mirror_up_to_cell :
  ∃ distances images,
    Np.linspace 2 5 100 = Ok distances ∧
    images_BP = Ok images ∧ length images = 100%nat ∧
    ∀ i image, images !! i = Some image →
      ∃ dist,
        distances !! i = Some dist ∧ 2 <= dist <= 5 ∧
        get_positions image
        = [(10 - dist * sin 0.65, dist * cos 0.65, 0);
           (0, 0, 0);
           (dist * sin 0.65, dist * cos 0.65, 0)] ∧
        vsub (10 - dist * sin 0.65, dist * cos 0.65, 0) (10, 0, 0)
        = (- dist * sin 0.65, dist * cos 0.65, 0) ∧
        distance (- dist * sin 0.65, dist * cos 0.65, 0) (0, 0, 0) = dist ∧
        get_distance image 2 1 = Ok dist.
Proof.
  destruct (linspace_total 2 5 100) as [distances Hds]; first lia.
  destruct (CuCO_images_total 2 5 100) as (images & Himages & Hlen);
    first lia.
  exists distances, images. split_and!; [done..|].
  intros i image Hi.
  destruct (images_BP_lookup distances images i image Hds Himages Hi)
    as (dist & Hdi & Hdist & Himage).
  exists dist. split; [done | split; [done |]]. split_and!.
  - by apply CuCO_image_positions.
  - unfold vsub. repeat f_equal; ring.
  - apply arm_length. lra.
  - by apply CuCO_image_distances.
Qed.

Lemma CuCO_structures_mirror_up_to_cell_witness :
  ∃ images image dist,
    images_BP = Ok images ∧ images !! 0%nat = Some image ∧
    get_positions image
    = [(10 - dist * sin 0.65, dist * cos 0.65, 0);
       (0, 0, 0);
       (dist * sin 0.65, dist * cos 0.65, 0)] ∧
    get_distance image 2 1 = Ok dist.
Proof.
  destruct CuCO_structures_mirror_up_to_cell
    as (distances & images & _ & Himages & Hlen & Hall).
  destruct images as [|image images]; first discriminate Hlen.
  destruct (Hall 0%nat image eq_refl) as (dist & _ & _ & Hpos & _ & _ & Hd).
  exists (image :: images), image, dist.
  exact (conj Himages (conj eq_refl (conj Hpos Hd))).
Defined.

(** * Further properties of the notebooks' code *)

(** ** More on the error metrics *)

Section MetricsFurther.

Implicit Types T P l : list R.

(** Cauchy-Schwarz against the constant sequence. *)
Lemma sum_abs_squared l :
  foldr Rplus 0 (Rabs <$> l) ^ 2
  <= INR (length l) * foldr Rplus 0 ((λ d, d ^ 2) <$> l).
Proof.
  induction l as [|d l IH].
  - simpl. lra.
  - rewrite !fmap_cons. cbn [foldr]. change (length (d :: l)) with (S (length l)).
    rewrite S_INR.
    set (S := foldr Rplus 0 (Rabs <$> l)) in *.
    set (Q := foldr Rplus 0 ((λ d, d ^ 2) <$> l)) in *.
    set (n := INR (length l)) in *.
    assert (0 <= n) as Hn by apply pos_INR.
    assert (0 <= Q) as HQ.
    { apply foldr_Rplus_nonneg, Forall_fmap, Forall_true. intros x. simpl.
      apply pow2_ge_0. }
    assert (Rabs d ^ 2 = d ^ 2) as Habs by (rewrite <- Rsqr_pow2, <- Rsqr_abs, Rsqr_pow2; done).
    assert (0 <= Rabs d) as Ha by apply Rabs_pos.
    assert (2 * Rabs d * S <= Q + n * d ^ 2) as Hmix.
    { destruct (Req_dec n 0) as [Hn0|Hn0].
      - rewrite Hn0 in IH. assert (S = 0) as -> by nra. nra.
      - assert (0 < n) by lra.
        apply (Rmult_le_reg_l n); first done.
        pose proof (pow2_ge_0 (S - n * Rabs d)). nra. }
    nra.
Qed.

Lemma foldr_Rplus_zero_inv l :
  Forall (λ x, 0 <= x) l → foldr Rplus 0 l = 0 → Forall (λ x, x = 0) l.
Proof.
  induction 1 as [|x l Hx Hl IH]; first done. simpl. intros Hsum.
  pose proof (foldr_Rplus_nonneg l Hl).
  constructor; [lra | apply IH; lra].
Qed.

Lemma zip_with_Rminus_zero T P :
  length T = length P → Forall (λ x, x = 0) (zip_with Rminus T P) → P = T.
Proof.
  revert P. induction T as [|t T IH]; intros [|p P] Hlen Hz; try done.
  simpl in *. inversion Hz as [|? ? Hd Hrest]; subst.
  f_equal; [lra | apply IH; [by injection Hlen | done]].
Qed.

Lemma zip_with_Rminus_shift (c : R) T P :
  zip_with Rminus ((λ t, t + c) <$> T) ((λ p, p + c) <$> P)
  = zip_with Rminus T P.
Proof.
  revert P. induction T as [|t T IH]; intros [|p P]; try done.
  rewrite !fmap_cons. cbn [zip_with]. rewrite IH. f_equal. ring.
Qed.

Lemma Rdiv_zero_inv (x y : R) : 0 < y → x / y = 0 → x = 0.
Proof.
  intros Hy H. replace x with (x / y * y) by (field; lra). rewrite H. ring.
Qed.

End MetricsFurther.

(** X1.  In exact real arithmetic (the rounding, overflow and underflow of
    binary64 are not modelled), on non-empty real-valued energies of equal
    length the two metrics are real numbers and the squared MAE does not
    exceed the MSE. *)
Theorem squared_MAE_below_MSE (T P : list R) :
  length T = length P → T ≠ [] →
  ∃ mse mae : R,
    printed (energy_MSE (reals T) (reals P)) = Ok (Fin mse) ∧
    printed (energy_MAE (reals T) (reals P)) = Ok (Fin mae) ∧
    mae ^ 2 <= mse.
Proof.
  intros Hlen Hne.
  rewrite energy_MSE_reals, energy_MAE_reals by done.
  unfold printed. cbn [fmap result_fmap fst].
  eexists _, _. split_and!; [done..|].
  pose proof (INR_length_pos T Hne) as Hn.
  pose proof (sum_abs_squared (zip_with Rminus T P)) as Hcs.
  rewrite length_zip_with, <- Hlen, Nat.min_id in Hcs.
  set (S := foldr Rplus 0 (Rabs <$> zip_with Rminus T P)) in *.
  set (Q := foldr Rplus 0 ((λ d, d ^ 2) <$> zip_with Rminus T P)) in *.
  set (n := INR (length T)) in *.
  apply (Rmult_le_reg_r (n * n)); first nra.
  replace ((S / n) ^ 2 * (n * n)) with (S ^ 2) by (field; lra).
  replace (Q / n * (n * n)) with (n * Q) by (field; lra).
  done.
Qed.

Lemma squared_MAE_below_MSE_witness :
  ∃ mse mae : R,
    printed (energy_MSE (reals [1; 3]) (reals [2; 1])) = Ok (Fin mse) ∧
    printed (energy_MAE (reals [1; 3]) (reals [2; 1])) = Ok (Fin mae) ∧
    mae ^ 2 <= mse.
Proof.
  apply (squared_MAE_below_MSE [1; 3] [2; 1]); [reflexivity | discriminate].
Defined.

(** X2.  In exact real arithmetic (the rounding, overflow and underflow of
    binary64 are not modelled; in binary64 a square can underflow to zero),
    a metric of zero means exact predictions: on non-empty real-valued
    energies of equal length, if the MSE or the MAE is [0] then the predicted
    sequence is the true one. *)
Theorem zero_metric_means_exact (T P : list R) :
  length T = length P → T ≠ [] →
  printed (energy_MSE (reals T) (reals P)) = Ok (Fin 0) ∨
  printed (energy_MAE (reals T) (reals P)) = Ok (Fin 0) →
  P = T.
Proof.
  intros Hlen Hne.
  rewrite energy_MSE_reals, energy_MAE_reals by done.
  unfold printed. cbn [fmap result_fmap fst].
  pose proof (INR_length_pos T Hne) as Hn.
  intros [H|H]; injection H as H; apply Rdiv_zero_inv in H; try done;
    apply foldr_Rplus_zero_inv in H.
  - apply zip_with_Rminus_zero; first done.
    apply Forall_fmap in H. eapply Forall_impl; first done.
    intros d Hd. simpl in Hd. nra.
  - apply Forall_fmap, Forall_true. intros d. simpl. apply pow2_ge_0.
  - apply zip_with_Rminus_zero; first done.
    apply Forall_fmap in H. eapply Forall_impl; first done.
    intros d Hd. simpl in Hd.
    destruct (Req_dec d 0) as [|Hd0]; first done.
    by apply Rabs_no_R0 in Hd0.
  - apply Forall_fmap, Forall_true. intros d. simpl. apply Rabs_pos.
Qed.

Lemma zero_metric_means_exact_witness : [1; 3] = [1; 3].
Proof.
  apply (zero_metric_means_exact [1; 3] [1; 3]);
    [reflexivity | discriminate |].
  left. rewrite energy_MSE_reals by done.
  unfold printed. cbn [fmap result_fmap fst]. do 2 f_equal.
  simpl. lra.
Defined.

(** X3.  Potential energies are defined up to a common constant, and the
    metrics do not see it: shifting the true and the predicted energies by
    the same amount leaves the MSE and the MAE unchanged. *)
Theorem metrics_shift_invariant (c : R) (T P : list R) :
  length T = length P →
  energy_MSE (reals ((λ t, t + c) <$> T)) (reals ((λ p, p + c) <$> P))
  = energy_MSE (reals T) (reals P) ∧
  energy_MAE (reals ((λ t, t + c) <$> T)) (reals ((λ p, p + c) <$> P))
  = energy_MAE (reals T) (reals P).
Proof.
  intros Hlen. destruct T as [|t T].
  - destruct P; done.
  - rewrite !energy_MSE_reals, !energy_MAE_reals by
      (rewrite ?length_fmap; done).
    by rewrite zip_with_Rminus_shift, length_fmap.
Qed.

Lemma metrics_shift_invariant_witness :
  energy_MSE (reals ((λ t, t + 5) <$> [1; 3])) (reals ((λ p, p + 5) <$> [2; 1]))
  = energy_MSE (reals [1; 3]) (reals [2; 1]) ∧
  energy_MAE (reals ((λ t, t + 5) <$> [1; 3])) (reals ((λ p, p + 5) <$> [2; 1]))
  = energy_MAE (reals [1; 3]) (reals [2; 1]).
Proof. apply (metrics_shift_invariant 5 [1; 3] [2; 1]). reflexivity. Defined.

(** ** Shapes and special values in the error metrics *)

Section MetricsShapes.

Implicit Types a b : Np.ndarray.

Lemma fsub_square_sym (x y : float64) :
  fmul (fsub x y) (fsub x y) = fmul (fsub y x) (fsub y x).
Proof.
  destruct x as [u|[]|], y as [v|[]|]; simpl; try done.
  f_equal. ring.
Qed.

Lemma fsub_abs_sym (x y : float64) : fabs (fsub x y) = fabs (fsub y x).
Proof.
  destruct x as [u|[]|], y as [v|[]|]; simpl; try done.
  f_equal. rewrite <- Rabs_Ropp. f_equal. ring.
Qed.

Lemma zip_with_fsub_sym (f : float64 → float64) a b :
  (∀ x y, f (fsub x y) = f (fsub y x)) →
  f <$> zip_with fsub a b = f <$> zip_with fsub b a.
Proof.
  intros Hf. revert b. induction a as [|x a IH]; intros [|y b]; try done.
  cbn [zip_with]. rewrite !fmap_cons. by rewrite Hf, IH.
Qed.

Lemma subtract_sym (f : float64 → float64) a b :
  (∀ x y, f (fsub x y) = f (fsub y x)) →
  fmap (M:=result) (fmap f) (Np.subtract a b)
  = fmap (M:=result) (fmap f) (Np.subtract b a).
Proof.
  intros Hf. unfold Np.subtract.
  destruct (decide (length a = length b)) as [Heq|Hne].
  - rewrite decide_True by done. cbn [fmap result_fmap]. f_equal.
    by apply zip_with_fsub_sym.
  - rewrite decide_False by done.
    destruct a as [|x [|x' a]], b as [|y [|y' b]]; try done;
      cbn [fmap result_fmap]; f_equal; rewrite <- !list_fmap_compose;
      apply list_fmap_ext; intros ? z _; simpl; by rewrite Hf.
Qed.

Lemma zip_with_fsub_replicate_r a (y : float64) :
  zip_with fsub a (replicate (length a) y) = (λ x, fsub x y) <$> a.
Proof. induction a as [|x a IH]; first done. simpl. by rewrite IH. Qed.

Lemma zip_with_fsub_replicate_l b (x : float64) :
  zip_with fsub (replicate (length b) x) b = (λ y, fsub x y) <$> b.
Proof. induction b as [|y b IH]; first done. simpl. by rewrite IH. Qed.

Lemma subtract_broadcast_r a (y : float64) :
  Np.subtract a [y] = Np.subtract a (replicate (length a) y).
Proof.
  unfold Np.subtract. rewrite length_replicate.
  rewrite (decide_True (P:=length a = length a)) by done.
  rewrite zip_with_fsub_replicate_r.
  destruct a as [|x [|x' a]]; done.
Qed.

Lemma subtract_broadcast_l b (x : float64) :
  Np.subtract [x] b = Np.subtract (replicate (length b) x) b.
Proof.
  unfold Np.subtract. rewrite length_replicate.
  rewrite (decide_True (P:=length b = length b)) by done.
  rewrite zip_with_fsub_replicate_l.
  destruct b as [|y [|y' b]]; done.
Qed.

Lemma fadd_not_finite (x y : float64) :
  no_minus_inf x → no_minus_inf y →
  is_finite x = false ∨ is_finite y = false →
  is_finite (fadd x y) = false ∧ no_minus_inf (fadd x y).
Proof.
  unfold no_minus_inf.
  destruct x as [u|[]|], y as [v|[]|]; simpl; intros Hx Hy [H|H]; done.
Qed.

Lemma fadd_no_minus_inf (x y : float64) :
  no_minus_inf x → no_minus_inf y → no_minus_inf (fadd x y).
Proof.
  unfold no_minus_inf. destruct x as [u|[]|], y as [v|[]|]; simpl; done.
Qed.

Lemma sum_no_minus_inf a : Forall no_minus_inf a → no_minus_inf (Np.sum a).
Proof.
  unfold Np.sum. induction 1 as [|x a Hx _ IH]; first done.
  cbn [foldr]. by apply fadd_no_minus_inf.
Qed.

Lemma sum_not_finite a :
  Forall no_minus_inf a → Exists (λ x, is_finite x = false) a →
  is_finite (Np.sum a) = false.
Proof.
  unfold Np.sum. induction 1 as [|x a Hx Ha IH]; intros Hex.
  - by apply Exists_nil in Hex.
  - cbn [foldr].
    apply fadd_not_finite; [done | by apply sum_no_minus_inf |].
    apply Exists_cons in Hex as [Hx'|Hex]; [by left | right; by apply IH].
Qed.

Lemma mean_not_finite a :
  Forall no_minus_inf a → Exists (λ x, is_finite x = false) a →
  is_finite (Np.mean a).1 = false.
Proof.
  intros Ha Hex. unfold Np.mean. cbn [fst].
  pose proof (sum_not_finite a Ha Hex) as Hs.
  destruct (Np.sum a) as [r|s|]; done.
Qed.

End MetricsShapes.

Lemma energy_MSE_fmap (a b : Np.ndarray) :
  energy_MSE a b
  = Np.mean <$> (fmap (M:=result) (fmap (λ x, fmul x x)) (Np.subtract a b)).
Proof. unfold energy_MSE. by destruct (Np.subtract a b). Qed.

Lemma energy_MAE_fmap (a b : Np.ndarray) :
  energy_MAE a b
  = Np.mean <$> (fmap (M:=result) (fmap fabs) (Np.subtract a b)).
Proof. unfold energy_MAE. by destruct (Np.subtract a b). Qed.

Lemma square_fsub_values (x y : float64) :
  no_minus_inf (fmul (fsub x y) (fsub x y)) ∧
  (is_finite y = false → is_finite (fmul (fsub x y) (fsub x y)) = false).
Proof.
  unfold no_minus_inf. destruct x as [u|[]|], y as [v|[]|]; simpl; done.
Qed.

Lemma abs_fsub_values (x y : float64) :
  no_minus_inf (fabs (fsub x y)) ∧
  (is_finite y = false → is_finite (fabs (fsub x y)) = false).
Proof.
  unfold no_minus_inf. destruct x as [u|[]|], y as [v|[]|]; simpl; done.
Qed.

Lemma zip_with_fsub_values (f : float64 → float64) (a b : Np.ndarray) :
  (∀ x y, no_minus_inf (f (fsub x y)) ∧
          (is_finite y = false → is_finite (f (fsub x y)) = false)) →
  length a = length b → Exists (λ y, is_finite y = false) b →
  Forall no_minus_inf (f <$> zip_with fsub a b) ∧
  Exists (λ x, is_finite x = false) (f <$> zip_with fsub a b).
Proof.
  intros Hf. revert b. induction a as [|x a IH]; intros [|y b] Hlen Hex;
    try discriminate Hlen.
  - by apply Exists_nil in Hex.
  - cbn [zip_with]. rewrite fmap_cons. destruct (Hf x y) as [Hn Hinf].
    injection Hlen as Hlen.
    apply Exists_cons in Hex as [Hy|Hex].
    + split.
      * constructor; first done. clear -Hf.
        revert b. induction a as [|x' a IH]; intros [|y' b]; try constructor.
        -- apply Hf.
        -- apply IH.
      * apply Exists_cons_hd. by apply Hinf.
    + destruct (IH b Hlen Hex) as [Hall Hsome]. split.
      * by constructor.
      * by apply Exists_cons_tl.
Qed.

(** X4.  The metrics do not depend on which sequence is called the true one:
    swapping the two arrays, whatever their shapes and values, gives the same
    MSE and MAE, or the same error. *)
Theorem metrics_symmetric (a b : Np.ndarray) :
  energy_MSE a b = energy_MSE b a ∧ energy_MAE a b = energy_MAE b a.
Proof.
  rewrite !energy_MSE_fmap, !energy_MAE_fmap. split; f_equal.
  - apply subtract_sym, fsub_square_sym.
  - apply subtract_sym, fsub_abs_sym.
Qed.

(** X5.  True and predicted energies of different lengths, neither of length
    one, make the subtraction raise [ValueError]: neither metric is
    computed. *)
Theorem metrics_shape_mismatch (a b : Np.ndarray) :
  length a ≠ length b → length a ≠ 1%nat → length b ≠ 1%nat →
  energy_MSE a b = Raise ValueError ∧ energy_MAE a b = Raise ValueError.
Proof.
  intros Hne Ha Hb. unfold energy_MSE, energy_MAE, Np.subtract.
  rewrite decide_False by done.
  destruct a as [|x [|x' a]], b as [|y [|y' b]]; done.
Qed.

Lemma metrics_shape_mismatch_witness :
  energy_MSE (reals [1; 2; 3]) (reals [1; 2]) = Raise ValueError ∧
  energy_MAE (reals [1; 2; 3]) (reals [1; 2]) = Raise ValueError.
Proof.
  apply (metrics_shape_mismatch (reals [1; 2; 3]) (reals [1; 2]));
    simpl; lia.
Defined.

(** X6.  An array of length one is broadcast without any error or warning:
    a single predicted energy is compared with every true energy, as if it
    were repeated, and likewise a single true energy. *)
Theorem metrics_broadcast_single (a : Np.ndarray) (y : float64) :
  energy_MSE a [y] = energy_MSE a (replicate (length a) y) ∧
  energy_MAE a [y] = energy_MAE a (replicate (length a) y) ∧
  energy_MSE [y] a = energy_MSE (replicate (length a) y) a ∧
  energy_MAE [y] a = energy_MAE (replicate (length a) y) a.
Proof.
  unfold energy_MSE, energy_MAE.
  by rewrite subtract_broadcast_r, subtract_broadcast_l.
Qed.

(** X7.  One non-finite prediction spoils both metrics: for arrays of equal
    length, if some predicted energy is [nan] or infinite, the MSE and the
    MAE are returned and neither is finite. *)
Theorem metrics_not_finite (a b : Np.ndarray) :
  length a = length b → Exists (λ y, is_finite y = false) b →
  ∃ mse mae,
    printed (energy_MSE a b) = Ok mse ∧ is_finite mse = false ∧
    printed (energy_MAE a b) = Ok mae ∧ is_finite mae = false.
Proof.
  intros Hlen Hex. unfold energy_MSE, energy_MAE, Np.subtract.
  rewrite decide_True by done. cbn [mbind result_bind printed fmap result_fmap].
  eexists _, _. split_and!; [done | | done |].
  - destruct (zip_with_fsub_values (λ x, fmul x x) a b square_fsub_values
                Hlen Hex) as [Hall Hsome].
    by apply mean_not_finite.
  - destruct (zip_with_fsub_values fabs a b abs_fsub_values Hlen Hex)
      as [Hall Hsome].
    by apply mean_not_finite.
Qed.

Lemma metrics_not_finite_witness :
  ∃ mse mae,
    printed (energy_MSE (reals [1; 2]) [Fin 1; NaN]) = Ok mse ∧
    is_finite mse = false ∧
    printed (energy_MAE (reals [1; 2]) [Fin 1; NaN]) = Ok mae ∧
    is_finite mae = false.
Proof.
  apply (metrics_not_finite (reals [1; 2]) [Fin 1; NaN]); first reflexivity.
  apply Exists_cons_tl, Exists_cons_hd. reflexivity.
Defined.

(** ** Bond lengths: [linspace] and [set_distance] *)

(** X8.  In exact real arithmetic (binary64 rounding is not modelled; in
    binary64 neighbouring samples of a very narrow range can round to the
    same number), the bond lengths start at the lower bound and end at the
    upper bound, and between increasing bounds they increase strictly. *)
Theorem linspace_endpoints_increasing
    (start stop : R) (num : Z) (ds : list R) :
  (2 ≤ num)%Z → Np.linspace start stop num = Ok ds →
  ds !! 0%nat = Some start ∧
  ds !! (Z.to_nat num - 1)%nat = Some stop ∧
  (start < stop →
   ∀ i j x y, (i < j)%nat → ds !! i = Some x → ds !! j = Some y → x < y).
Proof.
  intros Hnum Hds.
  pose proof (linspace_length _ _ _ _ Hds) as Hlen.
  assert (0 < IZR (num - 1)) as Hdiv by (apply IZR_lt; lia).
  split_and!.
  - rewrite (linspace_lookup start stop num ds 0) by (done || lia).
    f_equal. simpl. ring.
  - rewrite (linspace_lookup start stop num ds (Z.to_nat num - 1))
      by (done || lia).
    f_equal. replace (INR (Z.to_nat num - 1)) with (IZR (num - 1)).
    + field. lra.
    + rewrite INR_IZR_INZ. f_equal. lia.
  - intros Hlt i j x y Hij Hx Hy.
    assert (j < Z.to_nat num)%nat as Hj.
    { rewrite <- Hlen. by eapply lookup_lt_Some. }
    rewrite (linspace_lookup start stop num ds i) in Hx by (done || lia).
    rewrite (linspace_lookup start stop num ds j) in Hy by done.
    injection Hx as <-. injection Hy as <-.
    assert (0 < (stop - start) / IZR (num - 1)) as Hstep.
    { unfold Rdiv. apply Rmult_lt_0_compat; first lra.
      by apply Rinv_0_lt_compat. }
    assert (INR i < INR j) as Hlt' by by apply lt_INR.
    nra.
Qed.

Lemma linspace_endpoints_increasing_witness :
  ∃ ds, Np.linspace 0.8 1.2 100 = Ok ds ∧
        ds !! 0%nat = Some 0.8 ∧ ds !! 99%nat = Some 1.2.
Proof.
  destruct (linspace_total 0.8 1.2 100) as [ds Hds]; first lia.
  exists ds.
  destruct (linspace_endpoints_increasing 0.8 1.2 100 ds) as (H0 & H1 & _);
    [lia | exact Hds |].
  exact (conj Hds (conj H0 H1)).
Defined.

(** X9.  A generation loop fails only on a negative number of samples, with
    [ValueError] from [linspace]; for any other number it returns that many
    structures. *)
Theorem generation_fails_only_on_negative_count (a b : R) (num : Z) :
  ((num < 0)%Z ∧
   CuCO_images a b num = Raise ValueError ∧
   H2O_images a b num = Raise ValueError) ∨
  ((0 ≤ num)%Z ∧
   ∃ cuco h2o,
     CuCO_images a b num = Ok cuco ∧ length cuco = Z.to_nat num ∧
     H2O_images a b num = Ok h2o ∧ length h2o = Z.to_nat num).
Proof.
  destruct (decide (num < 0)%Z) as [Hneg|Hpos].
  - left. split; first done.
    unfold CuCO_images, H2O_images, Np.linspace.
    by rewrite decide_True by done.
  - right. split; first lia.
    destruct (CuCO_images_total a b num) as (cuco & ? & ?); first lia.
    destruct (H2O_images_total a b num) as (h2o & ? & ?); first lia.
    by exists cuco, h2o.
Qed.

Section SetDistance.

Lemma stretched_squares (L d x y z : R) :
  L ≠ 0 → L * L = x ^ 2 + y ^ 2 + z ^ 2 →
  (d / L * x) ^ 2 + (d / L * y) ^ 2 + (d / L * z) ^ 2 = Rsqr d.
Proof.
  intros HL Hsq. unfold Rsqr.
  transitivity ((d / L) ^ 2 * (x ^ 2 + y ^ 2 + z ^ 2)); first ring.
  rewrite <- Hsq. field. exact HL.
Qed.

Lemma norm_squared (v : vec3) :
  norm v * norm v = v.1.1 ^ 2 + v.1.2 ^ 2 + v.2 ^ 2.
Proof.
  destruct v as [[x y] z]. unfold norm. simpl fst. simpl snd.
  apply sqrt_sqrt.
  pose proof (pow2_ge_0 x). pose proof (pow2_ge_0 y). pose proof (pow2_ge_0 z).
  lra.
Qed.

(** The two new end points, their separation and their sum. *)
Lemma moved_ends (r0 r1 : vec3) (d : R) :
  norm (vsub r1 r0) ≠ 0 →
  let D := vsub r1 r0 in
  let x := 1 - d / norm D in
  let r0' := vadd r0 (vscale (x * 0.5) D) in
  let r1' := vsub r1 (vscale (x * (1 - 0.5)) D) in
  norm (vsub r1' r0') = Rabs d ∧ vadd r0' r1' = vadd r0 r1.
Proof.
  intros HL. pose proof (norm_squared (vsub r1 r0)) as Hsq.
  destruct r0 as [[x0 y0] z0], r1 as [[x1 y1] z1].
  cbn [vsub vadd vscale fst snd] in *.
  set (L := norm (x1 - x0, y1 - y0, z1 - z0)) in *.
  split.
  - unfold norm at 1. rewrite <- sqrt_Rsqr_abs. f_equal.
    rewrite <- (stretched_squares L d (x1 - x0) (y1 - y0) (z1 - z0))
      by done.
    field. done.
  - assert (0.5 = / 2) as -> by lra. f_equal; [f_equal|]; field; exact HL.
Qed.

Lemma set_distance_Ok (a : Atoms) (a0 a1 : nat) (d : R) (r0 r1 : vec3) :
  a0 ≠ a1 →
  get_positions a !! a0 = Some r0 → get_positions a !! a1 = Some r1 →
  norm (vsub r1 r0) ≠ 0 →
  let D := vsub r1 r0 in
  let x := 1 - d / norm D in
  set_distance a a0 a1 d =
  Ok (with_geometry a
        {| symbols := symbols (geometry a);
           positions :=
             <[a1 := vsub r1 (vscale (x * (1 - 0.5)) D)]>
               (<[a0 := vadd r0 (vscale (x * 0.5) D)]>
                  (positions (geometry a)));
           cell := cell (geometry a); pbc := pbc (geometry a) |}).
Proof.
  unfold get_positions. intros Hne H0 H1 HL. unfold set_distance.
  apply lookup_lt_Some in H0 as Hlt0. apply lookup_lt_Some in H1 as Hlt1.
  rewrite decide_False by lia.
  rewrite decide_False by (by rewrite !Nat.mod_small).
  rewrite H0, H1. by destruct (Req_dec_T _ 0).
Qed.

Lemma set_distance_inv (a a' : Atoms) (a0 a1 : nat) (d : R) :
  set_distance a a0 a1 d = Ok a' →
  a0 ≠ a1 ∧
  ∃ r0 r1,
    get_positions a !! a0 = Some r0 ∧ get_positions a !! a1 = Some r1 ∧
    norm (vsub r1 r0) ≠ 0.
Proof.
  unfold set_distance, get_positions.
  destruct (decide (_ = 0%nat)); first done.
  destruct (decide (_ `mod` _ = _)) as [|Hmod]; first done.
  destruct (_ !! a0) as [r0|]; last done.
  destruct (_ !! a1) as [r1|]; last done.
  destruct (Req_dec_T _ 0); first done.
  intros _. split; first by intros ->. by exists r0, r1.
Qed.

Lemma get_distance_after_set_distance (a a' : Atoms) (a0 a1 : nat) (d : R) :
  set_distance a a0 a1 d = Ok a' → get_distance a' a0 a1 = Ok (Rabs d).
Proof.
  intros Hset.
  destruct (set_distance_inv _ _ _ _ _ Hset)
    as (Hne & r0 & r1 & H0 & H1 & HL).
  rewrite (set_distance_Ok a a0 a1 d r0 r1) in Hset by done.
  injection Hset as <-.
  unfold get_distance, get_positions. cbn [with_geometry geometry positions].
  apply lookup_lt_Some in H0 as Hlt0. apply lookup_lt_Some in H1 as Hlt1.
  unfold get_positions in *.
  rewrite list_lookup_insert_ne by done.
  rewrite list_lookup_insert_eq by done.
  rewrite list_lookup_insert_eq by (by rewrite length_insert).
  f_equal. by apply moved_ends.
Qed.

Lemma norm_zero_inv (r0 r1 : vec3) : norm (vsub r1 r0) = 0 → r0 = r1.
Proof.
  intros HL.
  pose proof (norm_squared (vsub r1 r0)) as Hsq. rewrite HL in Hsq.
  destruct r0 as [[x0 y0] z0], r1 as [[x1 y1] z1].
  cbn [vsub fst snd] in Hsq.
  assert (x1 - x0 = 0 ∧ y1 - y0 = 0 ∧ z1 - z0 = 0) as (Hx & Hy & Hz).
  { pose proof (pow2_ge_0 (x1 - x0)). pose proof (pow2_ge_0 (y1 - y0)).
    pose proof (pow2_ge_0 (z1 - z0)). split_and!; nra. }
  f_equal; [f_equal|]; lra.
Qed.

Lemma set_distance_frame_geometry (a a' : Atoms) (a0 a1 : nat) (d : R) :
  set_distance a a0 a1 d = Ok a' →
  get_chemical_symbols a' = get_chemical_symbols a ∧
  get_cell a' = get_cell a ∧ get_pbc a' = get_pbc a ∧ calc a' = calc a ∧
  length (get_positions a') = length (get_positions a) ∧
  (∀ k, k ≠ a0 → k ≠ a1 → get_positions a' !! k = get_positions a !! k) ∧
  ∃ r0 r1 r0' r1',
    get_positions a !! a0 = Some r0 ∧ get_positions a !! a1 = Some r1 ∧
    get_positions a' !! a0 = Some r0' ∧ get_positions a' !! a1 = Some r1' ∧
    vadd r0' r1' = vadd r0 r1.
Proof.
  intros Hset.
  destruct (set_distance_inv _ _ _ _ _ Hset)
    as (Hne & r0 & r1 & H0 & H1 & HL).
  rewrite (set_distance_Ok a a0 a1 d r0 r1) in Hset by done.
  injection Hset as <-.
  apply lookup_lt_Some in H0 as Hlt0. apply lookup_lt_Some in H1 as Hlt1.
  unfold get_chemical_symbols, get_cell, get_pbc, get_positions in *.
  cbn [with_geometry geometry positions symbols cell pbc calc].
  split_and!; try done.
  - by rewrite !length_insert.
  - intros k Hk0 Hk1. by rewrite !list_lookup_insert_ne.
  - eexists r0, r1, _, _. split_and!; [done | done | | |].
    + rewrite list_lookup_insert_ne by done.
      by rewrite list_lookup_insert_eq.
    + by rewrite list_lookup_insert_eq by (by rewrite length_insert).
    + by apply moved_ends.
Qed.

End SetDistance.

(** X10.  In exact real arithmetic (binary64 rounding is not modelled),
    [set_distance] does what its name says: for two distinct indices in
    range whose atoms do not coincide, it returns, and the two atoms are
    afterwards at the requested distance (its absolute value, should it be
    negative). *)
Theorem set_distance_reaches
    (a : Atoms) (a0 a1 : nat) (d : R) (r0 r1 : vec3) :
  a0 ≠ a1 →
  get_positions a !! a0 = Some r0 → get_positions a !! a1 = Some r1 →
  r0 ≠ r1 →
  ∃ a', set_distance a a0 a1 d = Ok a' ∧
        get_distance a' a0 a1 = Ok (Rabs d).
Proof.
  intros Hne H0 H1 Hdiff.
  assert (norm (vsub r1 r0) ≠ 0) as HL
    by (intros HL; by apply Hdiff, norm_zero_inv).
  eexists. split.
  - by apply (set_distance_Ok a a0 a1 d r0 r1).
  - eapply get_distance_after_set_distance.
    by apply (set_distance_Ok a a0 a1 d r0 r1).
Qed.

Lemma set_distance_reaches_witness :
  ∃ a', set_distance training_0 0 2 1 = Ok a' ∧
        get_distance a' 0 2 = Ok (Rabs 1).
Proof.
  apply (set_distance_reaches training_0 0 2 1
           (5, 5, 5.2981545) (5.87240588, 3.09291855, 4.26505605));
    [lia | reflexivity | reflexivity |].
  intros Heq. injection Heq as Hx _ _. lra.
Defined.

(** X11.  For two distinct indices in range whose atoms do not coincide,
    [set_distance] returns a structure in which only those two atoms have
    moved: symbols, cell, periodic flags and calculator are kept and every
    other atom stays where it was.  In exact arithmetic (rounding is not
    modelled) the two atoms move symmetrically: the sum of their positions,
    hence their midpoint, is unchanged. *)
Theorem set_distance_frame
    (a : Atoms) (a0 a1 : nat) (d : R) (r0 r1 : vec3) :
  a0 ≠ a1 →
  get_positions a !! a0 = Some r0 → get_positions a !! a1 = Some r1 →
  r0 ≠ r1 →
  ∃ a' r0' r1',
    set_distance a a0 a1 d = Ok a' ∧
    get_chemical_symbols a' = get_chemical_symbols a ∧
    get_cell a' = get_cell a ∧ get_pbc a' = get_pbc a ∧ calc a' = calc a ∧
    length (get_positions a') = length (get_positions a) ∧
    (∀ k, k ≠ a0 → k ≠ a1 → get_positions a' !! k = get_positions a !! k) ∧
    get_positions a' !! a0 = Some r0' ∧ get_positions a' !! a1 = Some r1' ∧
    vadd r0' r1' = vadd r0 r1.
Proof.
  intros Hne H0 H1 Hdiff.
  assert (norm (vsub r1 r0) ≠ 0) as HL
    by (intros HL; by apply Hdiff, norm_zero_inv).
  pose proof (set_distance_Ok a a0 a1 d r0 r1 Hne H0 H1 HL) as Hset.
  cbn zeta in Hset.
  destruct (set_distance_frame_geometry _ _ _ _ _ Hset)
    as (Hs & Hc & Hp & Hk & Hlen & Hother & q0 & q1 & q0' & q1'
        & Hq0 & Hq1 & Hq0' & Hq1' & Hmid).
  rewrite H0 in Hq0. rewrite H1 in Hq1.
  injection Hq0 as <-. injection Hq1 as <-.
  eexists _, q0', q1'. split; first exact Hset. by split_and!.
Qed.

Lemma set_distance_frame_witness :
  ∃ a' r0' r1',
    set_distance training_0 0 2 1 = Ok a' ∧
    get_cell a' = get_cell training_0 ∧
    get_positions a' !! 1%nat = get_positions training_0 !! 1%nat ∧
    get_positions a' !! 0%nat = Some r0' ∧
    get_positions a' !! 2%nat = Some r1' ∧
    vadd r0' r1'
    = vadd (5, 5, 5.2981545) (5.87240588, 3.09291855, 4.26505605).
Proof.
  destruct (set_distance_frame training_0 0 2 1
              (5, 5, 5.2981545) (5.87240588, 3.09291855, 4.26505605))
    as (a' & r0' & r1' & Hset & _ & Hcell & _ & _ & _ & Hother & H0' & H1'
        & Hmid); [lia | reflexivity | reflexivity | |].
  - intros Heq. injection Heq as Hx _ _. lra.
  - exists a', r0', r1'.
    exact (conj Hset (conj Hcell (conj (Hother 1%nat ltac:(lia) ltac:(lia))
             (conj H0' (conj H1' Hmid))))).
Defined.

(** ** The water images of the GMP notebook *)

Section WaterImages.

Lemma molecule_H2O_spec (vacuum : R) :
  ∃ a t, molecule_H2O vacuum = Ok a ∧ calc a = None ∧
    get_chemical_symbols a = ["O"; "H"; "H"] ∧
    get_positions a =
      (λ v, vadd v t) <$>
        [(0, 0, 0.119262); (0, 0.763239, -0.477047);
         (0, -0.763239, -0.477047)].
Proof.
  unfold molecule_H2O, new_Atoms. rewrite string2symbols_OHH.
  cbn [mbind result_bind]. rewrite decide_True by done.
  cbn [mbind result_bind]. unfold center. cbn [geometry cell positions].
  destruct (center_axis _ _ _) as [ex tx].
  destruct (center_axis _ _ _) as [ey ty].
  destruct (center_axis _ _ _) as [ez tz].
  by eexists _, (tx, ty, tz).
Qed.

(** One pass of the water loop: what the appended structure looks like. *)
Lemma H2O_image_spec (dist : R) :
  ∃ image t,
    H2O_image dist = Ok image ∧ calc image = None ∧
    get_chemical_symbols image = ["O"; "H"; "H"] ∧
    get_cell image = (10, 10, 10) ∧ get_pbc image = (true, true, true) ∧
    get_distance image 0 2 = Ok (Rabs dist) ∧
    get_positions image !! 1%nat = Some (vadd (0, 0.763239, -0.477047) t).
Proof.
  unfold H2O_image.
  destruct (molecule_H2O_spec 10.0) as (a & t & -> & Hcalc & Hsym & Hpos).
  cbn [mbind result_bind].
  set (b := set_pbc (set_cell a (10, 10, 10)) (true, true, true)).
  assert (get_positions b = get_positions a) as Hb by done.
  destruct (set_distance b 0 2 dist) as [image|e] eqn:Hset.
  - exists image, t. split; first done.
    pose proof (get_distance_after_set_distance _ _ _ _ _ Hset) as Hd.
    destruct (set_distance_frame_geometry _ _ _ _ _ Hset)
      as (Hs & Hc & Hp & Hk & _ & Hother & _).
    split_and!; try done.
    + by rewrite Hk.
    + by rewrite Hs.
    + rewrite (Hother 1%nat) by lia. by rewrite Hb, Hpos.
  - exfalso.
    rewrite (set_distance_Ok b 0 2 dist
               (vadd (0, 0, 0.119262) t)
               (vadd (0, -0.763239, -0.477047) t)) in Hset; try done.
    + by rewrite Hb, Hpos.
    + by rewrite Hb, Hpos.
    + apply H2O_separation.
Qed.

Lemma H2O_images_lookup start stop num distances images i image :
  Np.linspace start stop num = Ok distances →
  H2O_images start stop num = Ok images →
  images !! i = Some image →
  ∃ dist, distances !! i = Some dist ∧ H2O_image dist = Ok image.
Proof.
  intros Hds. unfold H2O_images. rewrite Hds.
  cbn [mbind result_bind]. intros Hall%for_append_Forall2 Hi.
  destruct (Forall2_lookup_r _ _ _ _ _ Hall Hi) as (dist & Hdist & Himage).
  by exists dist.
Qed.

End WaterImages.

(** X12.  The water loop sets the bond it is asked to set: for [K >= 2]
    bond lengths between [0 <= a < b], the [i]-th structure has, in exact
    real arithmetic (binary64 rounding is not modelled), atoms 0 and 2 the
    [i]-th bond length apart; it is an O, H, H structure in the
    10 x 10 x 10 cell, periodic along all three axes, with no calculator. *)
Theorem H2O_images_bond_lengths (a b : R) (K : Z) (images : list Atoms) :
  (2 ≤ K)%Z → 0 <= a → a < b → H2O_images a b K = Ok images →
  ∃ distances,
    Np.linspace a b K = Ok distances ∧
    ∀ i image, images !! i = Some image →
      ∃ dist,
        distances !! i = Some dist ∧
        get_distance image 0 2 = Ok dist ∧
        get_chemical_symbols image = ["O"; "H"; "H"] ∧
        get_cell image = (10, 10, 10) ∧
        get_pbc image = (true, true, true) ∧
        calc image = None.
Proof.
  intros HK Ha Hab Himages.
  destruct (linspace_total a b K) as [distances Hds]; first lia.
  exists distances. split; first done. intros i image Hi.
  destruct (H2O_images_lookup a b K distances images i image Hds Himages Hi)
    as (dist & Hdist & Himage).
  exists dist. split; first done.
  destruct (H2O_image_spec dist)
    as (image' & t & Himage' & Hcalc & Hsym & Hcell & Hpbc & Hd & _).
  rewrite Himage in Himage'. injection Himage' as <-.
  split_and!; try done.
  rewrite Hd. f_equal. apply Rabs_pos_eq.
  destruct (linspace_bounds a b K distances HK Hab Hds i dist Hdist). lra.
Qed.

Lemma H2O_images_bond_lengths_witness :
  ∃ images distances,
    images_GMP = Ok images ∧
    Np.linspace 0.8 1.2 100 = Ok distances ∧
    ∀ i image, images !! i = Some image →
      ∃ dist,
        distances !! i = Some dist ∧
        get_distance image 0 2 = Ok dist ∧
        get_chemical_symbols image = ["O"; "H"; "H"] ∧
        get_cell image = (10, 10, 10) ∧
        get_pbc image = (true, true, true) ∧
        calc image = None.
Proof.
  destruct (H2O_images_total 0.8 1.2 100) as (images & Himages & _);
    first lia.
  destruct (H2O_images_bond_lengths 0.8 1.2 100 images)
    as (distances & Hds & Hall); [lia | lra | lra | exact Himages |].
  exists images, distances. exact (conj Himages (conj Hds Hall)).
Defined.

(** X13.  The water images carry no calculator, so no true energy can be
    asked of them: the error cell run on them raises [RuntimeError] at the
    first structure. *)
Theorem error_cell_on_water_images_raises
    (emt_energy model_energy : Geometry → float64)
    (unchanged : Geometry → Geometry → bool)
    (a b : R) (K : Z) (images : list Atoms) (i : nat) (missing : exn) :
  (1 ≤ K)%Z → H2O_images a b K = Ok images →
  error_cell emt_energy model_energy unchanged images i missing
  = Raise RuntimeError.
Proof.
  intros HK Himages.
  destruct (linspace_total a b K) as [distances Hds]; first lia.
  destruct (H2O_images_total a b K) as (images' & Himages' & Hlen);
    first lia.
  rewrite Himages in Himages'. injection Himages' as <-.
  destruct images as [|image rest]; first (simpl in Hlen; lia).
  destruct (H2O_images_lookup a b K distances (image :: rest) 0%nat image
              Hds Himages eq_refl) as (dist & _ & Himage).
  destruct (H2O_image_spec dist) as (image' & t & Himage' & Hcalc & _).
  rewrite Himage in Himage'. injection Himage' as <-.
  unfold error_cell. cbn [potential_energies].
  unfold get_potential_energy. by rewrite Hcalc.
Qed.

Lemma error_cell_on_water_images_raises_witness :
  ∃ images,
    images_GMP = Ok images ∧
    error_cell_GMP (λ _, Fin 0) (λ _, Fin 0) (λ _ _, true) images
    = Raise RuntimeError.
Proof.
  destruct (H2O_images_total 0.8 1.2 100) as (images & Himages & _);
    first lia.
  exists images. split; first exact Himages.
  apply (error_cell_on_water_images_raises _ _ _ 0.8 1.2 100);
    [lia | exact Himages].
Defined.

(** ** Wrapping into the cell *)

Section WrapFurther.

Lemma wrap_coordinate_spec (edge x : R) :
  0 < edge →
  ∃ k : Z,
    wrap_coordinate true edge x = x - IZR k * edge ∧
    - (eps * edge) <= wrap_coordinate true edge x < (1 - eps) * edge.
Proof.
  intros He. unfold wrap_coordinate.
  exists (Int_part (x / edge + eps)).
  destruct (base_fp (x / edge + eps)) as [Hf0 Hf1].
  split.
  - unfold frac_part. field. lra.
  - split; nra.
Qed.

Lemma wrap_coordinate_idempotent (periodic : bool) (edge x : R) :
  edge_ok periodic edge = true →
  wrap_coordinate periodic edge (wrap_coordinate periodic edge x)
  = wrap_coordinate periodic edge x.
Proof.
  unfold edge_ok, wrap_coordinate. destruct periodic; last done.
  destruct (Req_dec_T edge 0) as [|He]; first done. intros _.
  destruct (base_fp (x / edge + eps)) as [Hf0 Hf1].
  set (f := frac_part (x / edge + eps)) in *.
  replace ((f + - eps) * edge / edge + eps) with f by (field; done).
  rewrite frac_part_unit by lra. done.
Qed.

Lemma wrap_position_idempotent (p : bool * bool * bool) (c v : vec3) :
  edge_ok p.1.1 c.1.1 && edge_ok p.1.2 c.1.2 && edge_ok p.2 c.2 = true →
  wrap_position p c (wrap_position p c v) = wrap_position p c v.
Proof.
  destruct p as [[px py] pz], c as [[cx cy] cz], v as [[x y] z].
  cbn [fst snd wrap_position].
  intros [[Hx Hy]%andb_prop Hz]%andb_prop.
  by rewrite !wrap_coordinate_idempotent.
Qed.

Lemma wrap_Ok (a a' : Atoms) (p : bool * bool * bool) :
  wrap a p = Ok a' →
  edge_ok p.1.1 (get_cell a).1.1 && edge_ok p.1.2 (get_cell a).1.2
    && edge_ok p.2 (get_cell a).2 = true ∧
  a' = with_geometry a
         {| symbols := symbols (geometry a);
            positions := wrap_position p (cell (geometry a))
                           <$> positions (geometry a);
            cell := cell (geometry a); pbc := pbc (geometry a) |}.
Proof.
  unfold wrap, get_cell. destruct p as [[px py] pz].
  destruct (cell (geometry a)) as [[cx cy] cz]. cbn [fst snd].
  destruct (_ && _); last done. intros H. by injection H as <-.
Qed.

Lemma wrap_total (a : Atoms) (p : bool * bool * bool) :
  edge_ok p.1.1 (get_cell a).1.1 && edge_ok p.1.2 (get_cell a).1.2
    && edge_ok p.2 (get_cell a).2 = true →
  ∃ a', wrap a p = Ok a'.
Proof.
  unfold wrap, get_cell. destruct p as [[px py] pz].
  destruct (cell (geometry a)) as [[cx cy] cz]. cbn [fst snd].
  intros ->. eauto.
Qed.

End WrapFurther.

(** X14.  In exact real arithmetic (binary64 rounding is not modelled),
    wrapping along a periodic axis of positive edge moves a coordinate by a
    whole number of edges, into the window from [-eps * edge] (included) to
    [(1 - eps) * edge] (excluded), [eps = 1e-7]. *)
Theorem wrap_coordinate_into_cell (edge x : R) :
  0 < edge →
  ∃ k : Z,
    wrap_coordinate true edge x = x - IZR k * edge ∧
    - (eps * edge) <= wrap_coordinate true edge x < (1 - eps) * edge.
Proof. apply wrap_coordinate_spec. Qed.

Lemma wrap_coordinate_into_cell_witness :
  ∃ k : Z,
    wrap_coordinate true 10 (-3) = -3 - IZR k * 10 ∧
    - (eps * 10) <= wrap_coordinate true 10 (-3) < (1 - eps) * 10.
Proof. apply (wrap_coordinate_into_cell 10 (-3)). lra. Defined.

(** X15.  [wrap] changes nothing but the positions, and in exact real
    arithmetic (binary64 rounding is not modelled) it is idempotent: a
    structure that [wrap] returned is returned as it is by a second [wrap]
    with the same flags. *)
Theorem wrap_idempotent (a a' : Atoms) (p : bool * bool * bool) :
  wrap a p = Ok a' →
  wrap a' p = Ok a' ∧
  get_chemical_symbols a' = get_chemical_symbols a ∧
  get_cell a' = get_cell a ∧ get_pbc a' = get_pbc a ∧ calc a' = calc a ∧
  length (get_positions a') = length (get_positions a).
Proof.
  intros Hwrap. destruct (wrap_Ok _ _ _ Hwrap) as [Hedges ->].
  unfold get_chemical_symbols, get_cell, get_pbc, get_positions in *.
  cbn [with_geometry geometry symbols cell pbc calc positions].
  split_and!; try done; last by rewrite length_fmap.
  destruct (wrap_total (with_geometry a
              {| symbols := symbols (geometry a);
                 positions := wrap_position p (cell (geometry a))
                                <$> positions (geometry a);
                 cell := cell (geometry a); pbc := pbc (geometry a) |}) p)
    as [a'' Hagain]; first done.
  rewrite Hagain. f_equal.
  destruct (wrap_Ok _ _ _ Hagain) as [_ ->].
  unfold with_geometry. cbn [geometry symbols cell pbc calc positions].
  do 2 f_equal. rewrite <- list_fmap_compose.
  apply list_fmap_ext. intros _ v _. simpl.
  by apply wrap_position_idempotent.
Qed.

Lemma wrap_idempotent_witness :
  ∃ a', wrap training_0 (true, true, true) = Ok a' ∧
        wrap a' (true, true, true) = Ok a'.
Proof.
  destruct (wrap_total training_0 (true, true, true)) as [a' Ha'].
  - unfold get_cell, edge_ok. cbn [training_0 geometry training_0_geometry cell fst snd].
    destruct (Req_dec_T 10 0) as [H|_]; [lra | reflexivity].
  - exists a'. split; first exact Ha'.
    exact (proj1 (wrap_idempotent training_0 a' (true, true, true) Ha')).
Defined.



(** ** The error cell as a whole *)

Section ErrorCell.

Variable emt_energy : Geometry → float64.
Variable model_energy : Geometry → float64.
Variable unchanged : Geometry → Geometry → bool.

#[local] Abbreviation energy_call' :=
  (get_potential_energy emt_energy model_energy unchanged).
#[local] Abbreviation energy_calls' :=
  (potential_energies emt_energy model_energy unchanged).
#[local] Abbreviation the_error_cell' :=
  (error_cell emt_energy model_energy unchanged).



End ErrorCell.



(** ** The G2 widths *)

Section Widths.

Lemma ln_10_pos : 0 < ln 10.
Proof. rewrite <- ln_1. apply ln_increasing; lra. Qed.

Lemma Rpower_log10 (x : R) : 0 < x → Rpower 10 (Np.log10 x) = x.
Proof.
  intros Hx. unfold Rpower, Np.log10. pose proof ln_10_pos.
  replace (ln x / ln 10 * ln 10) with (ln x) by (field; lra).
  by apply exp_ln.
Qed.

Lemma Rpower_log10_step (lo hi d : R) :
  0 < lo → 0 < hi → d ≠ 0 →
  Rpower 10 ((Np.log10 hi - Np.log10 lo) / d) = Rpower (hi / lo) (1 / d).
Proof.
  intros Hlo Hhi Hd. pose proof ln_10_pos.
  assert (ln (hi / lo) = ln hi - ln lo) as Hln.
  { unfold Rdiv.
    rewrite ln_mult, ln_Rinv by (done || by apply Rinv_0_lt_compat). ring. }
  unfold Rpower, Np.log10. f_equal. rewrite Hln. field. split; lra.
Qed.

Lemma etas_between_total (lo hi : R) (num : Z) :
  (0 ≤ num)%Z → ∃ etas, etas_between lo hi num = Ok etas.
Proof.
  intros Hnum. unfold etas_between, Np.logspace.
  destruct (linspace_total (Np.log10 lo) (Np.log10 hi) num Hnum) as [y ->].
  eauto.
Qed.

End Widths.

(** X22.  The G2 widths are geometrically spaced: [K >= 2] widths between
    positive bounds start exactly at the lower bound, end exactly at the
    upper bound, are all positive, and each is the previous one times the
    constant factor [(hi / lo) ^ (1 / (K - 1))]. *)
Theorem etas_geometric (lo hi : R) (K : Z) (etas : list R) :
  (2 ≤ K)%Z → 0 < lo → 0 < hi → etas_between lo hi K = Ok etas →
  length etas = Z.to_nat K ∧
  etas !! 0%nat = Some lo ∧
  etas !! (Z.to_nat K - 1)%nat = Some hi ∧
  Forall (λ e, 0 < e) etas ∧
  ∀ i x y, etas !! i = Some x → etas !! S i = Some y →
           y = x * Rpower (hi / lo) (1 / IZR (K - 1)).
Proof.
  intros HK Hlo Hhi. unfold etas_between, Np.logspace.
  destruct (Np.linspace (Np.log10 lo) (Np.log10 hi) K) as [ds|] eqn:Hds;
    last done.
  cbn [mbind result_bind]. intros [= <-].
  pose proof (linspace_length _ _ _ _ Hds) as Hlen.
  assert (0 < IZR (K - 1)) as Hdiv by (apply IZR_lt; lia).
  assert (∀ i, (i < Z.to_nat K)%nat →
            ((λ e, Rpower 10 e) <$> ds) !! i =
            Some (Rpower 10 (Np.log10 lo + INR i *
                    ((Np.log10 hi - Np.log10 lo) / IZR (K - 1))))) as Hlook.
  { intros i Hi. rewrite list_lookup_fmap.
    by rewrite (linspace_lookup _ _ K ds i HK Hi Hds). }
  split_and!.
  - by rewrite length_fmap.
  - rewrite Hlook by lia. f_equal.
    replace (Np.log10 lo + INR 0 *
               ((Np.log10 hi - Np.log10 lo) / IZR (K - 1)))
      with (Np.log10 lo) by (simpl; ring).
    by apply Rpower_log10.
  - rewrite Hlook by lia. f_equal.
    replace (INR (Z.to_nat K - 1)) with (IZR (K - 1))
      by (rewrite INR_IZR_INZ; f_equal; lia).
    replace (Np.log10 lo + IZR (K - 1) *
               ((Np.log10 hi - Np.log10 lo) / IZR (K - 1)))
      with (Np.log10 hi) by (field; lra).
    by apply Rpower_log10.
  - apply Forall_fmap, Forall_true. intros e. simpl. apply exp_pos.
  - intros i x y Hx Hy.
    assert (S i < Z.to_nat K)%nat as Hi.
    { rewrite <- Hlen, <- (length_fmap (λ e, Rpower 10 e)).
      by eapply lookup_lt_Some. }
    rewrite Hlook in Hx by lia. rewrite Hlook, S_INR in Hy by done.
    injection Hx as <-. injection Hy as <-.
    rewrite <- (Rpower_log10_step lo hi (IZR (K - 1))) by (done || lra).
    rewrite <- Rpower_plus. f_equal. ring.
Qed.

Lemma etas_geometric_witness :
  ∃ etas,
    G2_etas = Ok etas ∧ length etas = 4%nat ∧
    etas !! 0%nat = Some 0.05 ∧ etas !! 3%nat = Some 5.0 ∧
    Forall (λ e, 0 < e) etas.
Proof.
  destruct (etas_between_total 0.05 5.0 4) as [etas Hetas]; first lia.
  destruct (etas_geometric 0.05 5.0 4 etas) as (H1 & H2 & H3 & H4 & _);
    [lia | lra | lra | exact Hetas |].
  exists etas. exact (conj Hetas (conj H1 (conj H2 (conj H3 H4)))).
Defined.

(** ** Reading the whole trajectory *)

Section ReadingFurther.

Lemma range_unit_step (n : nat) :
  range 0 (Z.of_nat n) 1 = (λ k : nat, Z.of_nat k) <$> seq 0 n.
Proof.
  unfold range, range_length. rewrite decide_True by lia.
  destruct (decide (0 < Z.of_nat n)%Z) as [Hpos|Hz].
  - replace (Z.to_nat ((Z.of_nat n - 0 - 1) / 1 + 1)) with n
      by (rewrite Z.div_1_r; lia).
    apply list_fmap_ext. intros _ k _. lia.
  - by assert (n = 0%nat) as -> by lia.
Qed.

Lemma for_append_getitem_all {A} (trj : list A) :
  for_append (getitem trj) ((λ k : nat, Z.of_nat k) <$> seq 0 (length trj))
  = Ok trj.
Proof.
  destruct (for_append_getitem trj
              ((λ k : nat, Z.of_nat k) <$> seq 0 (length trj)))
    as (items & -> & Hlen & Hitems).
  { apply Forall_fmap, Forall_seq. intros k Hk. simpl. lia. }
  f_equal. rewrite length_fmap, length_seq in Hlen.
  apply list_eq. intros k.
  destruct (decide (k < length trj)%nat) as [Hk|Hk].
  - rewrite (Hitems k (Z.of_nat k)); first by rewrite Nat2Z.id.
    rewrite list_lookup_fmap, lookup_seq_lt by done. done.
  - rewrite !lookup_ge_None_2 by lia. done.
Qed.

End ReadingFurther.

(** X23.  The index string [":"], the alternative the loading cell keeps in
    a comment, reads the whole trajectory, every entry in order. *)
Theorem read_whole_trajectory (trj : list Atoms) :
  read trj ":" = Ok (Many trj).
Proof.
  unfold read.
  change (string2index ":") with (Ok (Slice (mkSlice None None None))).
  cbn [mbind result_bind].
  change (indices (mkSlice None None None) (Z.of_nat (length trj)))
    with (Ok (0%Z, Z.of_nat (length trj), 1%Z)).
  cbn [mbind result_bind].
  by rewrite range_unit_step, for_append_getitem_all.
Qed.

(** ** Centring with vacuum *)

Section Centring.

Lemma Rmin_shift (x y t : R) : Rmin (x + t) (y + t) = Rmin x y + t.
Proof. unfold Rmin. do 2 destruct (Rle_dec _ _); lra. Qed.

Lemma Rmax_shift (x y t : R) : Rmax (x + t) (y + t) = Rmax x y + t.
Proof. unfold Rmax. do 2 destruct (Rle_dec _ _); lra. Qed.

Lemma minimum_shift (t : R) (xs : list R) :
  xs ≠ [] → minimum ((λ x, x + t) <$> xs) = minimum xs + t.
Proof.
  destruct xs as [|x l]; first done. intros _. rewrite fmap_cons.
  unfold minimum. induction l as [|y l IH]; first done.
  rewrite fmap_cons. cbn [foldr]. by rewrite IH, Rmin_shift.
Qed.

Lemma maximum_shift (t : R) (xs : list R) :
  xs ≠ [] → maximum ((λ x, x + t) <$> xs) = maximum xs + t.
Proof.
  destruct xs as [|x l]; first done. intros _. rewrite fmap_cons.
  unfold maximum. induction l as [|y l IH]; first done.
  rewrite fmap_cons. cbn [foldr]. by rewrite IH, Rmax_shift.
Qed.

Lemma minimum_le_maximum (xs : list R) : minimum xs <= maximum xs.
Proof.
  destruct xs as [|x l]; first (cbn; lra). unfold minimum, maximum.
  assert (foldr Rmin x l <= x ∧ x <= foldr Rmax x l) as [? ?]; last lra.
  induction l as [|y l [IH1 IH2]]; first (cbn; lra).
  cbn [foldr]. split.
  - etrans; [apply Rmin_r | done].
  - etrans; [done | apply Rmax_r].
Qed.

Lemma center_axis_spec (vacuum edge : R) (xs : list R) :
  0 < vacuum →
  center_axis vacuum edge xs
  = (maximum xs - minimum xs + 2 * vacuum, vacuum - minimum xs).
Proof.
  intros Hv. pose proof (minimum_le_maximum xs) as Hle. unfold center_axis.
  set (e := if Req_dec_T edge 0 then 1 else edge).
  assert (e ≠ 0) as He
    by (unfold e; destruct (Req_dec_T edge 0); [lra | done]).
  assert (e * (1 + (maximum xs - minimum xs + 2 * vacuum - e) / e)
          = maximum xs - minimum xs + 2 * vacuum) as -> by (by field).
  clearbody e.
  destruct (Req_dec_T (_ + 2 * vacuum) 0) as [H0|H0]; first lra.
  f_equal; lra.
Qed.

Lemma center_spec (a : Atoms) (vacuum : R) :
  0 < vacuum →
  let xs := (λ v : vec3, v.1.1) <$> get_positions a in
  let ys := (λ v : vec3, v.1.2) <$> get_positions a in
  let zs := (λ v : vec3, v.2) <$> get_positions a in
  center a vacuum =
  with_geometry a
    {| symbols := symbols (geometry a);
       positions :=
         (λ v, vadd v (vacuum - minimum xs, vacuum - minimum ys,
                       vacuum - minimum zs)) <$> positions (geometry a);
       cell := (maximum xs - minimum xs + 2 * vacuum,
                maximum ys - minimum ys + 2 * vacuum,
                maximum zs - minimum zs + 2 * vacuum);
       pbc := pbc (geometry a) |}.
Proof.
  intros Hv. unfold center, get_positions.
  destruct (cell (geometry a)) as [[cx cy] cz].
  by rewrite !center_axis_spec by done.
Qed.

End Centring.

(** X25.  In exact real arithmetic (binary64 rounding is not modelled), for
    a positive vacuum [v] and a structure with at least one atom whose cell
    is missing or has three positive edges, [center(vacuum=v)], as
    [molecule] applies it, translates the structure as a whole and leaves
    [v] of empty space on either side along each axis: afterwards the
    smallest coordinate is [v], the largest is the cell edge minus [v], and
    the edge is the extent of the structure plus [2 * v]. *)
Theorem center_leaves_vacuum (a : Atoms) (vacuum : R) :
  0 < vacuum →
  get_cell a = (0, 0, 0) ∨
    (0 < (get_cell a).1.1 ∧ 0 < (get_cell a).1.2 ∧ 0 < (get_cell a).2) →
  get_positions a ≠ [] →
  let a' := center a vacuum in
  let xs := (λ v : vec3, v.1.1) <$> get_positions a in
  let ys := (λ v : vec3, v.1.2) <$> get_positions a in
  let zs := (λ v : vec3, v.2) <$> get_positions a in
  let xs' := (λ v : vec3, v.1.1) <$> get_positions a' in
  let ys' := (λ v : vec3, v.1.2) <$> get_positions a' in
  let zs' := (λ v : vec3, v.2) <$> get_positions a' in
  (∃ t, get_positions a' = (λ v, vadd v t) <$> get_positions a) ∧
  get_cell a' = (maximum xs - minimum xs + 2 * vacuum,
                 maximum ys - minimum ys + 2 * vacuum,
                 maximum zs - minimum zs + 2 * vacuum) ∧
  minimum xs' = vacuum ∧ minimum ys' = vacuum ∧ minimum zs' = vacuum ∧
  maximum xs' = (get_cell a').1.1 - vacuum ∧
  maximum ys' = (get_cell a').1.2 - vacuum ∧
  maximum zs' = (get_cell a').2 - vacuum.
Proof.
  intros Hv _ Hne. cbn zeta. rewrite center_spec by done.
  unfold get_positions, get_cell in *.
  cbn [with_geometry geometry positions cell fst snd].
  set (pos := positions (geometry a)) in *.
  assert (∀ t : vec3,
    (λ v : vec3, v.1.1) <$> ((λ v, vadd v t) <$> pos)
      = (λ x, x + t.1.1) <$> ((λ v : vec3, v.1.1) <$> pos) ∧
    (λ v : vec3, v.1.2) <$> ((λ v, vadd v t) <$> pos)
      = (λ x, x + t.1.2) <$> ((λ v : vec3, v.1.2) <$> pos) ∧
    (λ v : vec3, v.2) <$> ((λ v, vadd v t) <$> pos)
      = (λ x, x + t.2) <$> ((λ v : vec3, v.2) <$> pos)) as Hcoord.
  { intros [[tx ty] tz]. rewrite <- !list_fmap_compose.
    split_and!; apply list_fmap_ext; by intros _ [[x y] z] _. }
  assert (∀ f : vec3 → R, f <$> pos ≠ []) as Hne'
    by (intros f; by destruct pos).
  destruct (Hcoord (vacuum - minimum ((λ v : vec3, v.1.1) <$> pos),
                    vacuum - minimum ((λ v : vec3, v.1.2) <$> pos),
                    vacuum - minimum ((λ v : vec3, v.2) <$> pos)))
    as (-> & -> & ->).
  cbn [fst snd].
  rewrite !minimum_shift, !maximum_shift by done.
  split_and!; try lra; try done. by eexists.
Qed.

Lemma center_leaves_vacuum_witness :
  minimum ((λ v : vec3, v.1.1) <$> get_positions (center training_0 10))
  = 10 ∧
  get_cell (center training_0 10)
  = (maximum ((λ v : vec3, v.1.1) <$> get_positions training_0)
     - minimum ((λ v : vec3, v.1.1) <$> get_positions training_0) + 2 * 10,
     maximum ((λ v : vec3, v.1.2) <$> get_positions training_0)
     - minimum ((λ v : vec3, v.1.2) <$> get_positions training_0) + 2 * 10,
     maximum ((λ v : vec3, v.2) <$> get_positions training_0)
     - minimum ((λ v : vec3, v.2) <$> get_positions training_0) + 2 * 10).
Proof.
  destruct (center_leaves_vacuum training_0 10) as (_ & Hcell & Hx & _).
  - lra.
  - right. cbn. lra.
  - discriminate.
  - exact (conj Hx Hcell).
Defined.
